(** * salty-dog: rule selection, visiting and diff/mutate engine

    A shallow embedding of [src/rule/index.ts] and [src/rule/SchemaRule.ts].

    Modelling decisions, shared by the whole development:

    - A document is a tree [value]. JavaScript objects are finite maps from
      property names to values ([gmap string value]), so deep equality of two
      documents is plain equality of the trees.
    - Mutation in place is explicit state passing: a function that mutates
      the document or the context returns the new document or context.
    - A reference to a node of the document is the [path] that leads to it
      from the root; reading through the reference reads the current
      document at that path, writing through it replaces the subtree there.
      This is what a JavaScript reference does as long as the document is a
      tree (no node is shared between two places) and the node stays where
      it was picked.
    - [async] functions are their sequential bodies: every [await] in the
      source is on a call that is awaited at once. *)

From stdpp Require Import gmap strings list fin_maps.
From Stdlib Require Import ZArith.

#[local] Set Warnings "-register-all".

(** ** Tree values *)

(** A parsed YAML or JSON document. Numbers are kept as integers: the engine
    never computes with them, it only copies and compares them. *)
Inductive value :=
  | VNull
  | VBool (b : bool)
  | VNum (n : Z)
  | VStr (s : string)
  | VArr (items : list value)
  | VObj (fields : gmap string value).

(** One step from a container to a child: a property name or an index. *)
Inductive seg :=
  | Key (k : string)
  | Idx (i : nat).

Definition path := list seg.

(** The child of a node along one step. *)
Definition child (s : seg) (v : value) : option value :=
  match s, v with
  | Key k, VObj m => m !! k
  | Idx i, VArr xs => xs !! i
  | _, _ => None
  end.

(** Reading through a reference. *)
Fixpoint get (p : path) (v : value) : option value :=
  match p with
  | [] => Some v
  | s :: p' => child s v ≫= get p'
  end.

(** Rewriting the subtree at a path; a path that leads nowhere leaves the
    tree as it is. *)
Fixpoint modify (p : path) (f : value → value) (v : value) : value :=
  match p with
  | [] => f v
  | Key k :: p' =>
      match v with
      | VObj m => VObj (alter (modify p' f) k m)
      | _ => v
      end
  | Idx i :: p' =>
      match v with
      | VArr xs => VArr (alter (modify p' f) i xs)
      | _ => v
      end
  end.

(** Writing through a reference. *)
Definition put (p : path) (x : value) (v : value) : value :=
  modify p (λ _, x) v.

(** ** lodash and utility helpers *)

(** [isNil]: an absent ([null] or [undefined]) value is [None]. *)
Definition isNil {A} (o : option A) : bool :=
  match o with
  | None => true
  | Some _ => false
  end.

(** [defaultTo(value, defaultValue)]: the default replaces an absent
    value only. *)
Definition defaultTo {A} (o : option A) (d : A) : A :=
  match o with
  | None => d
  | Some x => x
  end.

(** [cloneDeep]: in a model where values are trees and not references, the
    independent deep copy of a tree is the tree. *)
Definition cloneDeep (v : value) : value := v.

(** [Array.prototype.includes] on strings and enumeration members. *)
Definition includes {A} `{EqDecision A} (xs : list A) (x : A) : bool :=
  bool_decide (x ∈ xs).

(** [intersection(xs, ys)]: the unique members of [xs] that occur in [ys],
    in the order of [xs]. *)
Definition intersection {A} `{EqDecision A} (xs ys : list A) : list A :=
  remove_dups (filter (λ x, x ∈ ys) xs).

(** Modelled from the spec: [hasItems] of [src/utils], which is not among
    the sources. The engine asks it whether a possibly absent sequence is
    non-empty. *)
Definition hasItems {A} (o : option (list A)) : bool :=
  match o with
  | Some (_ :: _) => true
  | _ => false
  end.

(** Modelled from the spec: [ensureArray] of [src/utils], which is not among
    the sources. Each selector criterion defaults to the empty sequence. *)
Definition ensureArray {A} (o : option (list A)) : list A :=
  match o with
  | None => []
  | Some xs => xs
  end.

(** ** Rules *)

(** Modelled from the spec: the severity enumeration [LogLevel] comes from
    the logging library; the rule-source format lists its members. *)
Inductive LogLevel := Debug | Info | Warn | Error | Fatal.

#[global] Instance LogLevel_eq_dec : EqDecision LogLevel.
Proof. solve_decision. Defined.

(** [RuleData]: a rule as it is read from a rule source. [select] is
    optional in the source format, so it may be absent here; schemas are
    plain data. *)
Module RuleData.
Record t := mk {
  desc : string;
  level : LogLevel;
  name : string;
  tags : list string;
  check : value;
  filter : option value;
  select : option string;
}.
End RuleData.

(** [SchemaRule]: the rule object. [oid] is the identity of the object: a
    JavaScript [Set] tells its members apart by reference, not by content. *)
Module SchemaRule.
Record t := mk {
  oid : nat;
  check : value;
  desc : string;
  filter : option value;
  level : LogLevel;
  name : string;
  select : string;
  tags : list string;
}.

(** The constructor; [o] is the fresh object's identity. *)
Definition new (o : nat) (data : RuleData.t) : t :=
  {| oid := o;
     desc := RuleData.desc data;
     level := RuleData.level data;
     name := RuleData.name data;
     select := defaultTo (RuleData.select data) "$";
     tags := RuleData.tags data;
     check := cloneDeep (RuleData.check data);
     filter :=
       if negb (isNil (RuleData.filter data))
       then cloneDeep <$> RuleData.filter data
       else None |}.
End SchemaRule.

(** ** Rule selection *)

Record RuleSelector := {
  excludeLevel : list LogLevel;
  excludeName : list string;
  excludeTag : list string;
  includeLevel : list LogLevel;
  includeName : list string;
  includeTag : list string;
}.

(** [Partial<RuleSelector>]: every criterion may be left out. *)
Record RuleSelectorOptions := {
  optExcludeLevel : option (list LogLevel);
  optExcludeName : option (list string);
  optExcludeTag : option (list string);
  optIncludeLevel : option (list LogLevel);
  optIncludeName : option (list string);
  optIncludeTag : option (list string);
}.

Definition createRuleSelector (options : RuleSelectorOptions) : RuleSelector :=
  {| excludeLevel := ensureArray (optExcludeLevel options);
     excludeName := ensureArray (optExcludeName options);
     excludeTag := ensureArray (optExcludeTag options);
     includeLevel := ensureArray (optIncludeLevel options);
     includeName := ensureArray (optIncludeName options);
     includeTag := ensureArray (optIncludeTag options) |}.

(** [Set<SchemaRule>]: the members in insertion order. *)
Definition RuleSet := list SchemaRule.t.

Definition has (s : RuleSet) (r : SchemaRule.t) : bool :=
  bool_decide (SchemaRule.oid r ∈ SchemaRule.oid <$> s).

(** [Set.prototype.add]: a member is kept once, where it first went in. *)
Definition add (s : RuleSet) (r : SchemaRule.t) : RuleSet :=
  if has s r then s else s ++ [r].

(** The body of the loop of [resolveRules] for one rule [r]. *)
Definition resolveRule (selector : RuleSelector) (activeRules : RuleSet)
    (r : SchemaRule.t) : RuleSet :=
  if includes (excludeLevel selector) (SchemaRule.level r) then activeRules
  else if includes (excludeName selector) (SchemaRule.name r) then activeRules
  else
    let excludedTags := intersection (excludeTag selector) (SchemaRule.tags r) in
    if 0 <? length excludedTags then activeRules
    else
      let s1 :=
        if includes (includeLevel selector) (SchemaRule.level r)
        then add activeRules r else activeRules in
      let s2 :=
        if includes (includeName selector) (SchemaRule.name r)
        then add s1 r else s1 in
      let includedTags := intersection (includeTag selector) (SchemaRule.tags r) in
      if 0 <? length includedTags then add s2 r else s2.

Definition resolveRules (rules : list SchemaRule.t) (selector : RuleSelector)
    : list SchemaRule.t :=
  foldl (resolveRule selector) [] rules.

(** The three exclude tests of the loop, as one predicate. *)
Definition excluded (selector : RuleSelector) (r : SchemaRule.t) : Prop :=
  SchemaRule.level r ∈ excludeLevel selector
  ∨ SchemaRule.name r ∈ excludeName selector
  ∨ ∃ t, t ∈ excludeTag selector ∧ t ∈ SchemaRule.tags r.

(** The three include tests of the loop, as one predicate. *)
Definition included (selector : RuleSelector) (r : SchemaRule.t) : Prop :=
  SchemaRule.level r ∈ includeLevel selector
  ∨ SchemaRule.name r ∈ includeName selector
  ∨ ∃ t, t ∈ includeTag selector ∧ t ∈ SchemaRule.tags r.

(** ** Structural deltas *)

(** One operation of a delta: a key or an index that was added, changed or
    removed, named by its path from the node the delta is about. *)
Inductive DeltaOp :=
  | Added (p : path) (rhs : value)
  | Changed (p : path) (rhs : value)
  | Removed (p : path).

(** The structural diff library the engine imports: [diff(lhs, rhs)] and
    [applyDiff(target, source)]. The engine is written against this
    interface; [applyDiff] returns the new state of [target]. *)
Class DeltaEngine := {
  diff : value → value → list DeltaOp;
  applyDiff : value → value → value;
}.

(** Modelled from the spec: the delta engine, whose code is the [deep-diff]
    package and not among the sources. [diff] compares two trees and yields
    one operation per added, changed or removed key or index, recursing into
    containers of the same kind; [apply] replays the operations on the
    target. *)
Module Delta.

(** An operation on a child, seen from its parent. *)
Definition under (s : seg) (op : DeltaOp) : DeltaOp :=
  match op with
  | Added p x => Added (s :: p) x
  | Changed p x => Changed (s :: p) x
  | Removed p => Removed (s :: p)
  end.

Section Children.
(** The comparison of two children, given from outside so that the
    comparison of containers can be stated on its own. *)
Variable diff : value → value → list DeltaOp.

(** Arrays are compared index by index from [i] on; what the right
    array has more is added in order, what the left array has more is
    removed from the end. *)
Fixpoint diffItems (i : nat) (xs ys : list value) {struct xs}
    : list DeltaOp :=
  match xs, ys with
  | x :: xs', y :: ys' =>
      (under (Idx i) <$> diff x y) ++ diffItems (S i) xs' ys'
  | [], _ => imap (λ j y, Added [Idx (i + j)] y) ys
  | _ :: _, [] => (λ j, Removed [Idx j]) <$> reverse (seq i (length xs))
  end.

(** What one key of the left object contributes. *)
Definition diffLeft (mb : gmap string value) (k : string) (x : value)
    (acc : list DeltaOp) : list DeltaOp :=
  match mb !! k with
  | Some y => (under (Key k) <$> diff x y) ++ acc
  | None => Removed [Key k] :: acc
  end.

(** What one key of the right object contributes. *)
Definition diffRight (ma : gmap string value) (k : string) (y : value)
    (acc : list DeltaOp) : list DeltaOp :=
  match ma !! k with
  | Some _ => acc
  | None => Added [Key k] y :: acc
  end.

(** Objects are compared key by key: the keys of the left object are
    compared or removed, the keys only the right object has are added. *)
Definition diffFields (ma mb : gmap string value) : list DeltaOp :=
  map_fold (diffLeft mb) [] ma ++ map_fold (diffRight ma) [] mb.
End Children.

Fixpoint diff (a b : value) : list DeltaOp :=
  match a, b with
  | VNull, VNull => []
  | VBool x, VBool y => if bool_decide (x = y) then [] else [Changed [] b]
  | VNum x, VNum y => if bool_decide (x = y) then [] else [Changed [] b]
  | VStr x, VStr y => if bool_decide (x = y) then [] else [Changed [] b]
  | VArr xs, VArr ys => diffItems diff 0 xs ys
  | VObj ma, VObj mb => diffFields diff ma mb
  | _, _ => [Changed [] b]
  end.

(** Setting a key of an object or an index of an array; an index past the
    end appends. *)
Definition put_child (s : seg) (x : value) (v : value) : value :=
  match s, v with
  | Key k, VObj m => VObj (<[k := x]> m)
  | Idx i, VArr xs =>
      if bool_decide (i < length xs) then VArr (<[i := x]> xs)
      else VArr (xs ++ [x])
  | _, _ => v
  end.

(** Deleting a key of an object or an index of an array. *)
Definition drop_child (s : seg) (v : value) : value :=
  match s, v with
  | Key k, VObj m => VObj (delete k m)
  | Idx i, VArr xs => VArr (delete i xs)
  | _, _ => v
  end.

(** Walks to the container that holds the last step of [p] and rewrites
    it there. *)
Fixpoint at_parent (p : path) (f : seg → value → value) (v : value) : value :=
  match p with
  | [] => v
  | s :: p' =>
      match p' with
      | [] => f s v
      | _ :: _ => modify [s] (at_parent p' f) v
      end
  end.

Definition applyChange (target : value) (op : DeltaOp) : value :=
  match op with
  | Changed [] x => x
  | Changed p x => at_parent p (λ s, put_child s x) target
  | Added p x => at_parent p (λ s, put_child s x) target
  | Removed p => at_parent p drop_child target
  end.

Definition apply (target : value) (ops : list DeltaOp) : value :=
  foldl applyChange target ops.

Definition applyDiff (target source : value) : value :=
  apply target (diff target source).

End Delta.

(** The engine of the spec as an instance of the interface. *)
Definition structural : DeltaEngine :=
  {| diff := Delta.diff; applyDiff := Delta.applyDiff |}.

(** ** Validators, results and the visitor context *)

(** A validation-failure descriptor of the schema compiler. *)
Record ErrorObject := {
  dataPath : string;
  message : string;
}.

(** One call of a compiled predicate: its verdict, the [errors] property it
    leaves on the function, and the node as the call leaves it (a predicate
    may fill in defaults). A predicate of the source can only rewrite a
    container in place; here it may leave any tree, so what holds for every
    [ValidateFunction] holds for those of the source. *)
Record Validation := {
  valid : bool;
  verrors : option (list ErrorObject);
  vdata : value;
}.

Definition ValidateFunction := value → Validation.

(** Modelled from the spec: [VisitorError], declared in [src/visitor], which
    is not among the sources: the rule, a pointer into the failing node and a
    message. *)
Record VisitorError := {
  errRule : SchemaRule.t;
  errPath : string;
  errMsg : string;
}.

Module VisitorResult.
Record t := mk {
  changes : list DeltaOp;
  errors : list VisitorError;
}.
End VisitorResult.

(** What the engine binds to a log line. *)
Inductive LogField :=
  | LItem (v : value)
  | LRule (r : SchemaRule.t)
  | LName (s : string)
  | LCount (n : nat)
  | LDiff (d : list DeltaOp)
  | LErrors (e : option (list ErrorObject)).

Record LogEntry := {
  logLevel : LogLevel;
  logFields : list (string * LogField);
  logMsg : string;
}.

(** Modelled from the spec: [VisitorContext], declared in [src/visitor],
    which is not among the sources. It carries the logger (here: the lines
    logged so far), the run options, the accumulated report, and the two
    capabilities the rules consume: path selection and schema compilation. *)
Module VisitorContext.
Record Options := { mutate : bool }.

Record t := mk {
  logger : list LogEntry;
  innerOptions : Options;
  changes : list DeltaOp;
  errors : list VisitorError;
  pick : string → value → list path;
  compile : value → ValidateFunction;
}.

Definition log (lvl : LogLevel) (fields : list (string * LogField))
    (msg : string) (ctx : t) : t :=
  mk (logger ctx ++ [Build_LogEntry lvl fields msg]) (innerOptions ctx)
     (changes ctx) (errors ctx) (pick ctx) (compile ctx).

Definition debug := log Debug.
Definition info := log Info.
Definition warn := log Warn.

(** The report is append-only: merging adds the other result's changes
    and errors after those already there. *)
Definition mergeResult (ctx : t) (other : VisitorResult.t) : t :=
  mk (logger ctx) (innerOptions ctx)
     (changes ctx ++ VisitorResult.changes other)
     (errors ctx ++ VisitorResult.errors other)
     (pick ctx) (compile ctx).
End VisitorContext.

(** Modelled from the spec: [friendlyError] of [src/utils/ajv], which is not
    among the sources: one descriptor becomes one error that carries the
    rule. *)
Definition friendlyError (ctx : VisitorContext.t) (err : ErrorObject)
    (rule : SchemaRule.t) : VisitorError :=
  {| errRule := rule; errPath := dataPath err; errMsg := message err |}.

(** ** The rule's methods *)

Definition pick (this : SchemaRule.t) (ctx : VisitorContext.t) (root : value)
    : VisitorContext.t * list path :=
  let items := VisitorContext.pick ctx (SchemaRule.select this) root in
  let ctx :=
    if bool_decide (length items = 0)
    then VisitorContext.debug [] "no data selected" ctx
    else ctx in
  (ctx, items).

Definition compileFilter (this : SchemaRule.t) (ctx : VisitorContext.t)
    : ValidateFunction :=
  match SchemaRule.filter this with
  | None => λ node, {| valid := true; verrors := None; vdata := node |}
  | Some schema => VisitorContext.compile ctx schema
  end.

(** [visit] returns the context with the lines it logged, its result, and
    the node as the predicates left it. *)
Definition visit (this : SchemaRule.t) (ctx : VisitorContext.t) (node : value)
    : VisitorContext.t * VisitorResult.t * value :=
  let ctx :=
    VisitorContext.debug [("item", LItem node); ("rule", LRule this)]
      "visiting node" ctx in
  let check := VisitorContext.compile ctx (SchemaRule.check this) in
  let filter := compileFilter this ctx in
  let filtered := filter node in
  let node := vdata filtered in
  if valid filtered then
    let ctx := VisitorContext.debug [("item", LItem node)] "checking item" ctx in
    let checked := check node in
    let node := vdata checked in
    if negb (valid checked) && hasItems (verrors checked) then
      let errors :=
        (λ err, friendlyError ctx err this) <$> default [] (verrors checked) in
      (ctx, VisitorResult.mk [] errors, node)
    else
      (ctx, VisitorResult.mk [] [], node)
  else
    let ctx :=
      VisitorContext.debug
        [("errors", LErrors (verrors filtered)); ("item", LItem node)]
        "skipping item" ctx in
    (ctx, VisitorResult.mk [] [], node).

(** ** The visiting engine *)

Section Engine.
Context `{DeltaEngine}.

(** The body of the inner loop of [visitRules]: one rule on one picked
    node. [ref] is the reference that [pick] returned; the node it denotes
    is read from the document as it is now. The source iterates over the
    values it picked before the loop, and the two agree as long as the
    reference still leads to the node that was picked. They differ in a
    run that may mutate and whose picks overlap, when an earlier write of
    the same rule detached or replaced the node, and for a scalar, which the
    source holds by value: the source still visits, logs and reports on the
    value it holds, and nothing it does to that value reaches the document;
    the model reads the path again, and leaves a path that is gone out. *)
Definition visitItem (rule : SchemaRule.t) (ctx : VisitorContext.t)
    (data : value) (ref : path) : VisitorContext.t * value :=
  match get ref data with
  | None => (ctx, data)
  | Some item =>
      let itemResult := cloneDeep item in
      let '(ctx, ruleResult, itemResult) := visit rule ctx itemResult in
      if 0 <? length (VisitorResult.errors ruleResult) then
        let ctx :=
          VisitorContext.warn
            [("count", LCount (length (VisitorResult.errors ruleResult)));
             ("rule", LRule rule)]
            "rule failed" ctx in
        (VisitorContext.mergeResult ctx ruleResult, data)
      else
        let itemDiff := diff item itemResult in
        if hasItems (Some itemDiff) then
          let ctx :=
            VisitorContext.info
              [("diff", LDiff itemDiff); ("item", LItem item);
               ("rule", LName (SchemaRule.name rule))]
              "rule passed with modifications" ctx in
          if VisitorContext.mutate (VisitorContext.innerOptions ctx) then
            (ctx, put ref (applyDiff item itemResult) data)
          else
            (ctx, data)
        else
          (VisitorContext.info [("rule", LName (SchemaRule.name rule))]
             "rule passed" ctx,
           data)
  end.

(** The inner loop: the picked nodes in order. *)
Definition visitItems (rule : SchemaRule.t) (ctx : VisitorContext.t)
    (data : value) (items : list path) : VisitorContext.t * value :=
  foldl (λ st item, visitItem rule st.1 st.2 item) (ctx, data) items.

(** The body of the outer loop: pick, then visit what was picked. *)
Definition visitRule (ctx : VisitorContext.t) (data : value)
    (rule : SchemaRule.t) : VisitorContext.t * value :=
  let '(ctx, items) := pick rule ctx data in
  visitItems rule ctx data items.

(** [visitRules] returns the context and the document as the run leaves
    it. *)
Definition visitRules (ctx : VisitorContext.t) (rules : list SchemaRule.t)
    (data : value) : VisitorContext.t * value :=
  foldl (λ st rule, visitRule st.1 st.2 rule) (ctx, data) rules.

End Engine.

(** ** Notions the properties are stated with *)

(** Two contexts of one run: same options and same capabilities. The logger
    and the report may differ. *)
Definition same_env (c1 c2 : VisitorContext.t) : Prop :=
  VisitorContext.innerOptions c1 = VisitorContext.innerOptions c2
  ∧ VisitorContext.pick c1 = VisitorContext.pick c2
  ∧ VisitorContext.compile c1 = VisitorContext.compile c2.

(** A stretch of a run, from a context and a document to the context and the
    document it leaves. *)
Definition stretch := VisitorContext.t → value → VisitorContext.t * value.

(** What every stretch of the engine keeps: the options and capabilities,
    the recorded changes, the errors already reported, and, unless the run
    may mutate, the document. *)
Definition guarded (T : stretch) : Prop :=
  ∀ c d,
    same_env c (T c d).1
    ∧ VisitorContext.changes (T c d).1 = VisitorContext.changes c
    ∧ (∃ E, VisitorContext.errors (T c d).1 = VisitorContext.errors c ++ E)
    ∧ (VisitorContext.mutate (VisitorContext.innerOptions c) = false →
       (T c d).2 = d).

(** A stretch does the same from any two contexts of one run: the same
    errors are added to the report and the same document is left. *)
Definition uniform (T : stretch) : Prop :=
  ∀ c1 c2 d, same_env c1 c2 →
    (T c1 d).2 = (T c2 d).2
    ∧ ∃ E, VisitorContext.errors (T c1 d).1 = VisitorContext.errors c1 ++ E
           ∧ VisitorContext.errors (T c2 d).1 = VisitorContext.errors c2 ++ E.

(** The errors that [visit] makes of a verdict of the check predicate. *)
Definition reported (rule : SchemaRule.t) (ctx : VisitorContext.t)
    (checked : Validation) : list VisitorError :=
  if negb (valid checked) && hasItems (verrors checked)
  then (λ err, friendlyError ctx err rule) <$> default [] (verrors checked)
  else [].

(** Two references are apart when neither leads through the other. *)
Definition apart (p q : path) : Prop :=
  (∀ r, q ≠ p ++ r) ∧ (∀ r, p ≠ q ++ r).

(** The size of a tree, to reason by induction on trees. *)
Fixpoint vsize (v : value) : nat :=
  match v with
  | VArr xs => S (foldr (λ x n, vsize x + n) 0 xs)
  | VObj m => S (map_fold (λ _ x n, vsize x + n) 0 m)
  | _ => 1
  end.

(** An operation [diff] can yield: only a change can be about the root. *)
Definition rooted (op : DeltaOp) : Prop :=
  match op with
  | Added [] _ | Removed [] => False
  | _ => True
  end.

(** ** Selection, as one test *)

(** The tests of one turn of the loop of [resolveRules], as one boolean:
    none of the three exclude tests and one of the three include tests. *)
Definition selected (selector : RuleSelector) (r : SchemaRule.t) : bool :=
  negb (includes (excludeLevel selector) (SchemaRule.level r))
  && negb (includes (excludeName selector) (SchemaRule.name r))
  && negb (0 <? length (intersection (excludeTag selector) (SchemaRule.tags r)))
  && (includes (includeLevel selector) (SchemaRule.level r)
      || includes (includeName selector) (SchemaRule.name r)
      || (0 <? length (intersection (includeTag selector) (SchemaRule.tags r)))).

(** ** Loading rules *)

(** [RuleSource]: one document of a rule source file. *)
Module RuleSource.
Record t := mk {
  definitions : option (gmap string value);
  name : string;
  rules : list RuleData.t;
}.
End RuleSource.

(** What [loadRules] consumes from outside: reading a file and parsing its
    contents into documents. [None] is a read that is rejected or a parse
    that throws; [loadRules] catches neither. The parser is taken to return
    documents of the declared type [RuleSource]: a document without [rules]
    or an entry without [tags], on which the source throws as well, is not a
    value of these types and is not modelled. *)
Record Sources := {
  readFile : string → option string;
  parse : string → option (list RuleSource.t);
}.

(** What [loadRules] changes outside its result: the objects it creates
    ([nextOid] is the identity the next new object gets) and the schemas it
    hands to the context. *)
Record LoadState := {
  nextOid : nat;
  addedSchemas : list (string * gmap string value);
}.

(** Modelled from the spec: [addSchema] of [VisitorContext], which is not
    among the sources. The call is recorded, in order, with its arguments. *)
Definition addSchema (name : string) (schema : gmap string value)
    (st : LoadState) : LoadState :=
  {| nextOid := nextOid st;
     addedSchemas := addedSchemas st ++ [(name, schema)] |}.

(** [data.rules.map((it) => new SchemaRule(it))]: one new object per entry,
    in order. *)
Definition newRules (first : nat) (entries : list RuleData.t)
    : list SchemaRule.t :=
  imap (λ i it, SchemaRule.new (first + i) it) entries.

(** The body of the inner loop of [loadRules]: one document. *)
Definition loadSource (st : LoadState) (rules : list SchemaRule.t)
    (data : RuleSource.t) : LoadState * list SchemaRule.t :=
  let st :=
    match RuleSource.definitions data with
    | Some definitions => addSchema (RuleSource.name data) definitions st
    | None => st
    end in
  ({| nextOid := nextOid st + length (RuleSource.rules data);
      addedSchemas := addedSchemas st |},
   rules ++ newRules (nextOid st) (RuleSource.rules data)).

(** The outer loop of [loadRules], from the rules pushed so far. A read or a
    parse that fails ends the load with no result; what was done to the
    state before stays done. *)
Fixpoint loadPaths (src : Sources) (paths : list string) (st : LoadState)
    (rules : list SchemaRule.t) : LoadState * option (list SchemaRule.t) :=
  match paths with
  | [] => (st, Some rules)
  | path :: rest =>
      match readFile src path with
      | None => (st, None)
      | Some contents =>
          match parse src contents with
          | None => (st, None)
          | Some docs =>
              let loaded :=
                foldl (λ acc data, loadSource acc.1 acc.2 data) (st, rules)
                  docs in
              loadPaths src rest loaded.1 loaded.2
          end
      end
  end.

Definition loadRules (src : Sources) (paths : list string) (st : LoadState)
    : LoadState * option (list SchemaRule.t) :=
  loadPaths src paths st [].

(** The documents of a list of files, file by file, when every file can be
    read and parsed. *)
Fixpoint documentsOf (src : Sources) (paths : list string)
    : option (list RuleSource.t) :=
  match paths with
  | [] => Some []
  | path :: rest =>
      docs ← readFile src path ≫= parse src;
      more ← documentsOf src rest;
      Some (docs ++ more)
  end.

(** The schema registrations a list of documents asks for. *)
Definition registrations (docs : list RuleSource.t)
    : list (string * gmap string value) :=
  omap (λ data, (λ d, (RuleSource.name data, d))
                  <$> RuleSource.definitions data) docs.

(** ** What a run reports *)

(** The errors of one rule on one picked node of a document. *)
Definition nodeErrors (rule : SchemaRule.t) (ctx : VisitorContext.t)
    (data : value) (ref : path) : list VisitorError :=
  match get ref data with
  | Some item => VisitorResult.errors (visit rule ctx (cloneDeep item)).1.2
  | None => []
  end.

(** The errors of one rule on a document: those of the nodes it picks, in
    the order picked. *)
Definition ruleErrors (ctx : VisitorContext.t) (data : value)
    (rule : SchemaRule.t) : list VisitorError :=
  VisitorContext.pick ctx (SchemaRule.select rule) data
    ≫= nodeErrors rule ctx data.

(** A context grown from another: same options, capabilities and recorded
    changes; the log and the errors of the first come first in the second. *)
Definition grown (c c' : VisitorContext.t) : Prop :=
  same_env c c'
  ∧ VisitorContext.changes c' = VisitorContext.changes c
  ∧ VisitorContext.logger c `prefix_of` VisitorContext.logger c'
  ∧ VisitorContext.errors c `prefix_of` VisitorContext.errors c'.

(** A catalog in which an identity denotes one object: two entries with the
    same identity are the same rule. *)
Definition identified (rules : list SchemaRule.t) : Prop :=
  ∀ r1 r2, r1 ∈ rules → r2 ∈ rules →
    SchemaRule.oid r1 = SchemaRule.oid r2 → r1 = r2.

(** The line [pick] logs when a rule selects nothing. *)
Definition noDataSelected : LogEntry :=
  {| logLevel := Debug; logFields := []; logMsg := "no data selected" |}.

(** ** Concrete inputs

    Small rules, selectors and documents on which the properties below are
    exercised. *)

(** A selector with no criterion at all. *)
Definition noOptions : RuleSelectorOptions :=
  {| optExcludeLevel := None; optExcludeName := None; optExcludeTag := None;
     optIncludeLevel := None; optIncludeName := None; optIncludeTag := None |}.

(** A rule source entry that leaves [select] out. *)
Definition wholeDocumentData : RuleData.t :=
  {| RuleData.desc := "the document lists servers";
     RuleData.level := Error;
     RuleData.name := "servers-required";
     RuleData.tags := ["net"];
     RuleData.check := VObj {["required" := VArr [VStr "servers"]]};
     RuleData.filter := None;
     RuleData.select := None |}.

(** The rule of the first scenario: every server needs a port. *)
Definition portRequiredData : RuleData.t :=
  {| RuleData.desc := "servers need a port";
     RuleData.level := Warn;
     RuleData.name := "port-required";
     RuleData.tags := ["net"; "servers"];
     RuleData.check := VObj {["required" := VArr [VStr "port"]]};
     RuleData.filter := None;
     RuleData.select := Some "$.servers[*]" |}.

(** An entry whose [select] is present and empty. *)
Definition emptySelectData : RuleData.t :=
  {| RuleData.desc := "selects with the empty path";
     RuleData.level := Info;
     RuleData.name := "empty-select";
     RuleData.tags := [];
     RuleData.check := VObj ∅;
     RuleData.filter := None;
     RuleData.select := Some EmptyString |}.

(** An entry that lists one tag twice. *)
Definition twiceTaggedData : RuleData.t :=
  {| RuleData.desc := "tagged twice";
     RuleData.level := Info;
     RuleData.name := "twice-tagged";
     RuleData.tags := ["net"; "net"];
     RuleData.check := VObj ∅;
     RuleData.filter := None;
     RuleData.select := Some "$" |}.

Definition portRequired : SchemaRule.t := SchemaRule.new 1 portRequiredData.

(** A selector that both includes and excludes the tag [net], and includes
    the rule by name and by level as well. *)
Definition netInAndOut : RuleSelector :=
  {| excludeLevel := []; excludeName := []; excludeTag := ["net"];
     includeLevel := [Warn]; includeName := ["port-required"];
     includeTag := ["net"] |}.

(** A selector whose criteria name other rules only. *)
Definition othersOnly : RuleSelector :=
  {| excludeLevel := []; excludeName := []; excludeTag := [];
     includeLevel := [Error]; includeName := ["other"];
     includeTag := ["storage"] |}.

(** The rule of the second scenario: the check also gives a server without
    a [tag] the tag [default]. *)
Definition tagDefaultData : RuleData.t :=
  {| RuleData.desc := "servers have a host and a tag";
     RuleData.level := Info;
     RuleData.name := "tag-default";
     RuleData.tags := ["net"];
     RuleData.check :=
       VObj (<["required" := VArr [VStr "host"]]>
               {["default" := VObj {["tag" := VStr "default"]}]});
     RuleData.filter := None;
     RuleData.select := Some "$.servers[*]" |}.

(** A rule whose check fills in the tag, rejects servers without a port, and
    says nothing about why. *)
Definition quietData : RuleData.t :=
  {| RuleData.desc := "rejects without saying why";
     RuleData.level := Info;
     RuleData.name := "quiet";
     RuleData.tags := [];
     RuleData.check :=
       VObj (<["required" := VArr [VStr "port"]]>
               (<["default" := VObj {["tag" := VStr "default"]}]>
                  {["quiet" := VBool true]}));
     RuleData.filter := None;
     RuleData.select := Some "$.servers[*]" |}.

(** A rule that looks only at servers with a port, and wants a tag there. *)
Definition guardedData : RuleData.t :=
  {| RuleData.desc := "servers with a port need a tag";
     RuleData.level := Warn;
     RuleData.name := "tag-required";
     RuleData.tags := [];
     RuleData.check := VObj {["required" := VArr [VStr "tag"]]};
     RuleData.filter := Some (VObj {["required" := VArr [VStr "port"]]});
     RuleData.select := Some "$.servers[*]" |}.

Definition tagDefault : SchemaRule.t := SchemaRule.new 4 tagDefaultData.
Definition quiet : SchemaRule.t := SchemaRule.new 5 quietData.
Definition tagRequired : SchemaRule.t := SchemaRule.new 6 guardedData.

(** The document of the scenarios. *)
Definition serverA : value := VObj {["host" := VStr "a"]}.
Definition serverB : value :=
  VObj (<["host" := VStr "b"]> {["port" := VNum 80]}).
Definition inventory : value :=
  VObj {["servers" := VArr [serverA; serverB]]}.

(** A path selection capability that knows two selectors: the whole
    document, and every element of [servers]. *)
Definition pickServers (select : string) (root : value) : list path :=
  if bool_decide (select = "$") then [[]]
  else if bool_decide (select = "$.servers[*]") then
    match child (Key "servers") root with
    | Some (VArr xs) => (λ i, [Key "servers"; Idx i]) <$> seq 0 (length xs)
    | _ => []
    end
  else [].

(** A schema compiler that knows three keywords: [required] names the
    properties an object must have, [default] gives the properties to fill in
    when they are missing, and [quiet] keeps the failure descriptors back. *)
Definition requiredNames (schema : value) : list string :=
  match child (Key "required") schema with
  | Some (VArr xs) =>
      omap (λ x, match x with VStr s => Some s | _ => None end) xs
  | _ => []
  end.

Definition defaultFields (schema : value) : gmap string value :=
  match child (Key "default") schema with
  | Some (VObj m) => m
  | _ => ∅
  end.

Definition isQuiet (schema : value) : bool :=
  bool_decide (is_Some (child (Key "quiet") schema)).

Definition compileSchema (schema : value) : ValidateFunction := λ node,
  match node with
  | VObj m =>
      let filled := m ∪ defaultFields schema in
      let missing :=
        filter (λ k, ¬ is_Some (filled !! k)) (requiredNames schema) in
      {| valid := bool_decide (length missing = 0);
         verrors :=
           if isQuiet schema || bool_decide (length missing = 0) then None
           else Some ((λ k, {| dataPath := "."; message := k |}) <$> missing);
         vdata := VObj filled |}
  | _ =>
      {| valid := false;
         verrors := Some [{| dataPath := "."; message := "object" |}];
         vdata := node |}
  end.

(** A fresh context with these capabilities. *)
Definition freshContext (mutate : bool) : VisitorContext.t :=
  VisitorContext.mk [] {| VisitorContext.mutate := mutate |} [] []
    pickServers compileSchema.

(** A schema compiler that rejects every node, whatever the schema, with one
    descriptor. *)
Definition refuse (schema : value) : ValidateFunction := λ node,
  {| valid := false;
     verrors := Some [{| dataPath := "."; message := "refused" |}];
     vdata := node |}.

Definition refusingContext (mutate : bool) : VisitorContext.t :=
  VisitorContext.mk [] {| VisitorContext.mutate := mutate |} [] []
    pickServers refuse.

(** ** More concrete inputs *)

(** A catalog of four rule objects. *)
Definition catalog : list SchemaRule.t :=
  [portRequired; tagDefault; quiet; tagRequired].

(** A selector that takes the rules tagged [net] except the one named
    [tag-default], and a wider one that also takes warnings and excludes
    nothing. *)
Definition netOnly : RuleSelector :=
  {| excludeLevel := []; excludeName := ["tag-default"]; excludeTag := [];
     includeLevel := []; includeName := []; includeTag := ["net"] |}.

Definition netAndWarnings : RuleSelector :=
  {| excludeLevel := []; excludeName := []; excludeTag := [];
     includeLevel := [Warn]; includeName := []; includeTag := ["net"] |}.

(** Options that only exclude. *)
Definition excludeOnly : RuleSelectorOptions :=
  {| optExcludeLevel := Some [Debug]; optExcludeName := None;
     optExcludeTag := Some ["storage"];
     optIncludeLevel := None; optIncludeName := None; optIncludeTag := None |}.

(** Three rule source documents, in two files; a third file does not parse
    and any other file cannot be read. *)
Definition netSource : RuleSource.t :=
  {| RuleSource.definitions := Some {["port" := VObj ∅]};
     RuleSource.name := "net";
     RuleSource.rules := [portRequiredData] |}.

Definition tagSource : RuleSource.t :=
  {| RuleSource.definitions := None;
     RuleSource.name := "tags";
     RuleSource.rules := [tagDefaultData; guardedData] |}.

Definition emptySource : RuleSource.t :=
  {| RuleSource.definitions := Some ∅;
     RuleSource.name := "empty";
     RuleSource.rules := [] |}.

Definition ruleFiles : Sources :=
  {| readFile := λ path,
       if bool_decide (path = "net.yml") then Some "net"
       else if bool_decide (path = "tags.yml") then Some "tags"
       else if bool_decide (path = "bad.yml") then Some "?"
       else None;
     parse := λ contents,
       if bool_decide (contents = "net") then Some [netSource]
       else if bool_decide (contents = "tags") then Some [tagSource; emptySource]
       else None |}.

Definition startState : LoadState :=
  {| nextOid := 10; addedSchemas := [] |}.

(** A rule whose filter wants a port and fills in the tag. *)
Definition fillingFilterData : RuleData.t :=
  {| RuleData.desc := "servers with a port have a host";
     RuleData.level := Info;
     RuleData.name := "filling-filter";
     RuleData.tags := [];
     RuleData.check := VObj {["required" := VArr [VStr "host"]]};
     RuleData.filter :=
       Some (VObj (<["required" := VArr [VStr "port"]]>
                     {["default" := VObj {["tag" := VStr "default"]}]}));
     RuleData.select := Some "$.servers[*]" |}.

Definition fillingFilter : SchemaRule.t := SchemaRule.new 8 fillingFilterData.

(** A rule that selects with a path the selection capability does not
    know. *)
Definition nowhereData : RuleData.t :=
  {| RuleData.desc := "selects nothing";
     RuleData.level := Info;
     RuleData.name := "nowhere";
     RuleData.tags := [];
     RuleData.check := VObj ∅;
     RuleData.filter := None;
     RuleData.select := Some "$.clients[*]" |}.

Definition nowhere : SchemaRule.t := SchemaRule.new 9 nowhereData.

(** The first server with the tag filled in. *)
Definition serverATagged : value :=
  VObj (<["host" := VStr "a"]> {["tag" := VStr "default"]}).

(** A document with a node inside a node, a selection capability that picks
    both for the selector of all descendants, and a schema compiler whose
    predicates, whatever the schema, want an object with an object under
    [child], and give that child the tag [default] when it has none. *)
Definition family : value :=
  VObj {["parent" := VObj {["child" := VObj ∅]}]}.

Definition pickFamily (select : string) (root : value) : list path :=
  if bool_decide (select = "$..*")
  then [[Key "parent"]; [Key "parent"; Key "child"]]
  else [].

Definition fillChild (schema : value) : ValidateFunction := λ node,
  match node with
  | VObj m =>
      match m !! "child" with
      | Some (VObj c) =>
          {| valid := true;
             verrors := None;
             vdata :=
               VObj (<["child" := VObj (c ∪ {["tag" := VStr "default"]})]> m) |}
      | _ =>
          {| valid := false;
             verrors := Some [{| dataPath := "."; message := "child" |}];
             vdata := node |}
      end
  | _ =>
      {| valid := false;
         verrors := Some [{| dataPath := "."; message := "object" |}];
         vdata := node |}
  end.

Definition familyContext (mutate : bool) : VisitorContext.t :=
  VisitorContext.mk [] {| VisitorContext.mutate := mutate |} [] []
    pickFamily fillChild.

Definition childTaggedData : RuleData.t :=
  {| RuleData.desc := "children have a tag";
     RuleData.level := Info;
     RuleData.name := "child-tagged";
     RuleData.tags := [];
     RuleData.check := VObj ∅;
     RuleData.filter := None;
     RuleData.select := Some "$..*" |}.

Definition childTagged : SchemaRule.t := SchemaRule.new 20 childTaggedData.

(** * Properties *)

(** ** Rule selection *)

Section Selection.
Implicit Types (r : SchemaRule.t) (selector : RuleSelector)
  (s : RuleSet) (rules : list SchemaRule.t).

Lemma includes_true {A} `{EqDecision A} (xs : list A) x :
  includes xs x = true ↔ x ∈ xs.
Proof. unfold includes. by rewrite bool_decide_eq_true. Qed.

Lemma elem_of_intersection {A} `{EqDecision A} (xs ys : list A) x :
  x ∈ intersection xs ys ↔ x ∈ xs ∧ x ∈ ys.
Proof.
  unfold intersection.
  by rewrite elem_of_remove_dups, list_elem_of_filter, (comm and).
Qed.

Lemma intersection_has_items {A} `{EqDecision A} (xs ys : list A) :
  (0 <? length (intersection xs ys)) = true ↔ ∃ x, x ∈ xs ∧ x ∈ ys.
Proof.
  rewrite Nat.ltb_lt. split.
  - destruct (intersection xs ys) as [|x l] eqn:E; simpl; [lia|].
    intros _. exists x. apply elem_of_intersection. rewrite E. left.
  - intros (x & Hx). apply elem_of_intersection in Hx.
    destruct Hx; simpl; lia.
Qed.

Lemma elem_of_add s r r' : r' ∈ add s r → r' ∈ s ∨ r' = r.
Proof.
  unfold add. destruct (has s r); [by left|].
  rewrite elem_of_app, list_elem_of_singleton. tauto.
Qed.

(** One turn of the loop keeps what was selected, and adds the rule at
    hand only when no exclude test and some include test holds. *)
Lemma elem_of_resolveRule selector s r r' :
  r' ∈ resolveRule selector s r →
  r' ∈ s ∨ (r' = r ∧ ¬ excluded selector r ∧ included selector r).
Proof.
  unfold resolveRule.
  destruct (includes (excludeLevel selector) _) eqn:EL; [by left|].
  destruct (includes (excludeName selector) _) eqn:EN; [by left|].
  destruct (0 <? length (intersection (excludeTag selector) _)) eqn:ET;
    [by left|].
  assert (¬ excluded selector r) as Hex.
  { intros [Hl | [Hn | Ht]].
    - apply includes_true in Hl. congruence.
    - apply includes_true in Hn. congruence.
    - apply intersection_has_items in Ht. congruence. }
  destruct (includes (includeLevel selector) _) eqn:IL;
    destruct (includes (includeName selector) _) eqn:IN;
    destruct (0 <? length (intersection (includeTag selector) _)) eqn:IT;
    intros Hin;
    repeat (apply elem_of_add in Hin as [Hin | ->]);
    try (by left); right; split_and!; try done;
    try (left; by apply includes_true);
    try (right; left; by apply includes_true);
    try (right; right; by apply intersection_has_items).
Qed.

Lemma elem_of_foldl_resolveRule selector rules s r' :
  r' ∈ foldl (resolveRule selector) s rules →
  r' ∈ s ∨ (¬ excluded selector r' ∧ included selector r').
Proof.
  revert s. induction rules as [|r rules IH]; simpl; intros s Hin.
  - by left.
  - apply IH in Hin as [Hin | ?]; [|by right].
    apply elem_of_resolveRule in Hin as [? | (-> & ? & ?)]; auto.
Qed.

(** Every active rule passed no exclude test and some include test. *)
Lemma elem_of_resolveRules rules selector r :
  r ∈ resolveRules rules selector →
  ¬ excluded selector r ∧ included selector r.
Proof.
  intros Hin. apply elem_of_foldl_resolveRule in Hin as [Hin | ?]; [|done].
  by apply elem_of_nil in Hin.
Qed.

End Selection.

(** C2. With all six criteria empty, whether written out or left to
    [createRuleSelector]'s defaults, [resolveRules] selects no rule of any
    catalog; and for any selector, a rule that matches none of the three
    include tests is not among the active rules. *)
Theorem resolveRules_empty_criteria (rules : list SchemaRule.t) :
  resolveRules rules (createRuleSelector noOptions) = []
  ∧ resolveRules rules (Build_RuleSelector [] [] [] [] [] []) = []
  ∧ ∀ selector r,
      SchemaRule.level r ∉ includeLevel selector →
      SchemaRule.name r ∉ includeName selector →
      (∀ t, t ∈ includeTag selector → t ∉ SchemaRule.tags r) →
      r ∉ resolveRules rules selector.
Proof.
  assert (∀ selector r,
      SchemaRule.level r ∉ includeLevel selector →
      SchemaRule.name r ∉ includeName selector →
      (∀ t, t ∈ includeTag selector → t ∉ SchemaRule.tags r) →
      r ∉ resolveRules rules selector) as Hnone.
  { intros selector r Hl Hn Ht Hin.
    apply elem_of_resolveRules in Hin as [_ [? | [? | (t & ? & ?)]]];
      [done | done | by eapply Ht]. }
  assert (resolveRules rules (Build_RuleSelector [] [] [] [] [] []) = [])
    as Hempty.
  { destruct (resolveRules rules _) as [|r l] eqn:E; [done|].
    exfalso. apply (Hnone (Build_RuleSelector [] [] [] [] [] []) r);
      simpl; try apply not_elem_of_nil.
    - intros t Ht. by apply elem_of_nil in Ht.
    - rewrite E. left. }
  split_and!; done.
Qed.

Lemma resolveRules_empty_criteria_witness :
  resolveRules [portRequired] (createRuleSelector noOptions) = []
  ∧ portRequired ∉ resolveRules [portRequired] othersOnly.
Proof.
  split.
  - apply (resolveRules_empty_criteria [portRequired]).
  - apply (resolveRules_empty_criteria [portRequired]); simpl.
    + by rewrite list_elem_of_singleton.
    + by rewrite list_elem_of_singleton.
    + intros t Ht%list_elem_of_singleton Hin. subst t.
      by repeat (apply elem_of_cons in Hin as [Hin | Hin];
                 [discriminate Hin|]); apply elem_of_nil in Hin.
Defined.

(** C3. A rule that matches an exclude criterion (its level, its name, or
    one of its tags) is not among the active rules, whatever the include
    criteria say. A tag of the rule that is in both [includeTag] and
    [excludeTag] is the third case. *)
Theorem resolveRules_exclude_dominates (rules : list SchemaRule.t)
    (selector : RuleSelector) (r : SchemaRule.t) :
  (∃ t, t ∈ SchemaRule.tags r ∧ t ∈ includeTag selector
        ∧ t ∈ excludeTag selector)
  ∨ SchemaRule.level r ∈ excludeLevel selector
  ∨ SchemaRule.name r ∈ excludeName selector
  ∨ (∃ t, t ∈ SchemaRule.tags r ∧ t ∈ excludeTag selector) →
  r ∉ resolveRules rules selector.
Proof.
  intros Hex Hin. apply elem_of_resolveRules in Hin as [Hno _].
  apply Hno. unfold excluded.
  destruct Hex as [(t & ? & _ & ?) | [? | [? | (t & ? & ?)]]]; eauto.
Qed.

Lemma resolveRules_exclude_dominates_witness :
  portRequired ∉ resolveRules [portRequired] netInAndOut.
Proof.
  apply (resolveRules_exclude_dominates [portRequired] netInAndOut portRequired).
  left. exists "net". simpl. split_and!; apply elem_of_cons; by left.
Defined.

(** ** The rule constructor *)

(** C8, as stated, fails: a rule source entry whose [select] is present and
    empty yields a rule whose [select] is empty. *)
Lemma new_select_empty_counterexample :
  RuleData.select emptySelectData = Some EmptyString
  ∧ SchemaRule.select (SchemaRule.new 2 emptySelectData) = EmptyString.
Proof. split; reflexivity. Qed.

(** C8, amended. The constructor replaces an absent [select] by the
    whole-document selector and keeps a present one as it is; so the rule's
    [select] is non-empty whenever the entry's is absent or non-empty. *)
Theorem new_select_default (o : nat) (data : RuleData.t) :
  (RuleData.select data = None →
     SchemaRule.select (SchemaRule.new o data) = "$")
  ∧ (∀ s, RuleData.select data = Some s →
       SchemaRule.select (SchemaRule.new o data) = s)
  ∧ (RuleData.select data ≠ Some EmptyString →
       SchemaRule.select (SchemaRule.new o data) ≠ EmptyString).
Proof.
  unfold SchemaRule.new; simpl.
  destruct (RuleData.select data) as [s|]; simpl; split_and!;
    try done; try congruence.
Qed.

Lemma new_select_default_witness :
  SchemaRule.select (SchemaRule.new 7 wholeDocumentData) = "$"
  ∧ SchemaRule.select (SchemaRule.new 1 portRequiredData) = "$.servers[*]"
  ∧ SchemaRule.select (SchemaRule.new 1 portRequiredData) ≠ EmptyString.
Proof.
  split_and!.
  - apply (proj1 (new_select_default 7 wholeDocumentData)). reflexivity.
  - apply (proj1 (proj2 (new_select_default 1 portRequiredData))). reflexivity.
  - apply (proj2 (proj2 (new_select_default 1 portRequiredData))). discriminate.
Defined.

(** C9, as stated, fails: the tags of a rule are an array copied from the
    entry, and a tag listed twice is in the rule twice. *)
Lemma new_tags_duplicate_counterexample :
  SchemaRule.tags (SchemaRule.new 3 twiceTaggedData) = ["net"; "net"]
  ∧ ¬ NoDup (SchemaRule.tags (SchemaRule.new 3 twiceTaggedData)).
Proof.
  split; [reflexivity|].
  intros Hnd. apply NoDup_cons in Hnd as [Hnotin _].
  apply Hnotin. left.
Qed.

(** C9, amended. The rule's tags are the entry's tags, in the same order and
    as many times each: the same tags belong to both, and a tag occurs at
    most once in the rule exactly when it does in the entry. *)
Theorem new_tags_copy (o : nat) (data : RuleData.t) :
  SchemaRule.tags (SchemaRule.new o data) = RuleData.tags data
  ∧ (∀ t, t ∈ SchemaRule.tags (SchemaRule.new o data) ↔ t ∈ RuleData.tags data)
  ∧ (NoDup (SchemaRule.tags (SchemaRule.new o data))
       ↔ NoDup (RuleData.tags data)).
Proof. split_and!; reflexivity. Qed.

Lemma new_tags_copy_witness :
  "servers" ∈ SchemaRule.tags (SchemaRule.new 1 portRequiredData)
  ∧ NoDup (SchemaRule.tags (SchemaRule.new 1 portRequiredData)).
Proof.
  split.
  - apply (proj1 (proj2 (new_tags_copy 1 portRequiredData))). simpl.
    right. left.
  - apply (proj2 (proj2 (new_tags_copy 1 portRequiredData))). simpl.
    apply NoDup_cons. split.
    + by rewrite list_elem_of_singleton.
    + apply NoDup_singleton.
Defined.

(** ** Reading and writing through references *)

Lemma get_modify_apart (p q : path) (f : value → value) (v : value) :
  apart p q → get q (modify p f v) = get q v.
Proof.
  revert q v. induction p as [|s p IH]; intros q v [Hq Hp].
  - by destruct (Hq q).
  - destruct q as [|t q]; [by destruct (Hp (s :: p))|].
    assert (s = t → apart p q) as Hsub.
    { intros ->. split; intros r ->; [by apply (Hq r) | by apply (Hp r)]. }
    destruct s as [k|i], v as [| | | |xs|m]; simpl; try done.
    + destruct t as [k'|i']; simpl; [|done].
      destruct (decide (k = k')) as [->|Hne].
      * rewrite lookup_alter_eq. destruct (m !! k'); simpl; [|done].
        by apply IH, Hsub.
      * by rewrite lookup_alter_ne.
    + destruct t as [k'|i']; simpl; [done|].
      destruct (decide (i = i')) as [->|Hne].
      * rewrite list_lookup_alter_eq. destruct (xs !! i'); simpl; [|done].
        by apply IH, Hsub.
      * by rewrite list_lookup_alter_ne.
Qed.

Lemma get_put_apart (p q : path) (x v : value) :
  apart p q → get q (put p x v) = get q v.
Proof. apply get_modify_apart. Qed.

Lemma get_put_eq (p : path) (x v : value) :
  is_Some (get p v) → get p (put p x v) = Some x.
Proof.
  unfold put. revert v. induction p as [|s p IH]; intros v [y Hy]; [done|].
  destruct s as [k|i], v as [| | | |xs|m]; simpl in *; try done.
  - rewrite lookup_alter_eq. destruct (m !! k); simpl in *; [|done]. eauto.
  - rewrite list_lookup_alter_eq. destruct (xs !! i); simpl in *; [|done]. eauto.
Qed.

(** ** What [visit] does *)

Section Visit.
Implicit Types (rule : SchemaRule.t) (ctx : VisitorContext.t) (node : value).

(** A node that the filter rejects is skipped. *)
Lemma visit_skipped rule ctx node :
  valid (compileFilter rule ctx node) = false →
  visit rule ctx node =
    (VisitorContext.debug
       [("errors", LErrors (verrors (compileFilter rule ctx node)));
        ("item", LItem (vdata (compileFilter rule ctx node)))]
       "skipping item"
       (VisitorContext.debug [("item", LItem node); ("rule", LRule rule)]
          "visiting node" ctx),
     VisitorResult.mk [] [],
     vdata (compileFilter rule ctx node)).
Proof.
  intros Hf. unfold visit.
  change (compileFilter rule (VisitorContext.debug _ _ ctx))
    with (compileFilter rule ctx).
  by rewrite Hf.
Qed.

(** A node that the filter accepts is checked. *)
Lemma visit_checked rule ctx node :
  valid (compileFilter rule ctx node) = true →
  let node' := vdata (compileFilter rule ctx node) in
  let checked := VisitorContext.compile ctx (SchemaRule.check rule) node' in
  let ctx' :=
    VisitorContext.debug [("item", LItem node')] "checking item"
      (VisitorContext.debug [("item", LItem node); ("rule", LRule rule)]
         "visiting node" ctx) in
  visit rule ctx node =
    (ctx', VisitorResult.mk [] (reported rule ctx' checked), vdata checked).
Proof.
  intros Hf. unfold visit, reported.
  change (compileFilter rule (VisitorContext.debug _ _ ctx))
    with (compileFilter rule ctx).
  rewrite Hf. simpl.
  by destruct (negb _ && _).
Qed.

(** [visit] never reports a change. *)
Lemma visit_changes rule ctx node :
  VisitorResult.changes (visit rule ctx node).1.2 = [].
Proof.
  destruct (valid (compileFilter rule ctx node)) eqn:Hf.
  - by rewrite (visit_checked _ _ _ Hf).
  - by rewrite (visit_skipped _ _ _ Hf).
Qed.

(** [visit] only logs: options, capabilities and report stay. *)
Lemma visit_context rule ctx node :
  same_env ctx (visit rule ctx node).1.1
  ∧ VisitorContext.changes (visit rule ctx node).1.1
    = VisitorContext.changes ctx
  ∧ VisitorContext.errors (visit rule ctx node).1.1
    = VisitorContext.errors ctx.
Proof.
  destruct (valid (compileFilter rule ctx node)) eqn:Hf.
  - by rewrite (visit_checked _ _ _ Hf).
  - by rewrite (visit_skipped _ _ _ Hf).
Qed.

Lemma compileFilter_env rule c1 c2 :
  same_env c1 c2 → compileFilter rule c1 = compileFilter rule c2.
Proof.
  intros (_ & _ & Hc). unfold compileFilter. by rewrite Hc.
Qed.

(** The result of [visit] and the node it leaves depend on the context
    through its capabilities only. *)
Lemma visit_uniform rule c1 c2 node :
  same_env c1 c2 →
  (visit rule c1 node).1.2 = (visit rule c2 node).1.2
  ∧ (visit rule c1 node).2 = (visit rule c2 node).2.
Proof.
  intros Henv. pose proof (compileFilter_env rule _ _ Henv) as Hcf.
  destruct Henv as (_ & _ & Hc).
  destruct (valid (compileFilter rule c1 node)) eqn:Hf.
  - rewrite (visit_checked _ c1 _ Hf).
    rewrite Hcf in Hf. rewrite (visit_checked _ c2 _ Hf).
    by rewrite Hcf, Hc.
  - rewrite (visit_skipped _ c1 _ Hf).
    rewrite Hcf in Hf. rewrite (visit_skipped _ c2 _ Hf).
    by rewrite Hcf.
Qed.

End Visit.

(** ** What the engine does *)

Section EngineFacts.
Context `{DeltaEngine}.
Implicit Types (rule : SchemaRule.t) (ctx : VisitorContext.t)
  (data item : value) (ref : path).

Lemma same_env_refl ctx : same_env ctx ctx.
Proof. done. Qed.

Lemma same_env_sym c1 c2 : same_env c1 c2 → same_env c2 c1.
Proof. intros (? & ? & ?). done. Qed.

Lemma same_env_trans c1 c2 c3 :
  same_env c1 c2 → same_env c2 c3 → same_env c1 c3.
Proof. intros (? & ? & ?) (? & ? & ?). split_and!; congruence. Qed.

(** A detached reference: nothing happens. *)
Lemma visitItem_detached rule ctx data ref :
  get ref data = None → visitItem rule ctx data ref = (ctx, data).
Proof. intros Hg. unfold visitItem. by rewrite Hg. Qed.

(** The rule failed on the node: the errors go to the report, the
    document stays. *)
Lemma visitItem_failed rule ctx data ref item :
  get ref data = Some item →
  VisitorResult.errors (visit rule ctx (cloneDeep item)).1.2 ≠ [] →
  visitItem rule ctx data ref =
    (VisitorContext.mergeResult
       (VisitorContext.warn
          [("count", LCount (length (VisitorResult.errors
               (visit rule ctx (cloneDeep item)).1.2)));
           ("rule", LRule rule)]
          "rule failed" (visit rule ctx (cloneDeep item)).1.1)
       (visit rule ctx (cloneDeep item)).1.2,
     data).
Proof.
  intros Hg He. unfold visitItem. rewrite Hg.
  destruct (visit rule ctx (cloneDeep item)) as [[ctx1 res] node1].
  simpl in *. by destruct (VisitorResult.errors res).
Qed.

(** The rule passed and left the node as it was. *)
Lemma visitItem_passed_clean rule ctx data ref item :
  get ref data = Some item →
  VisitorResult.errors (visit rule ctx (cloneDeep item)).1.2 = [] →
  diff item (visit rule ctx (cloneDeep item)).2 = [] →
  visitItem rule ctx data ref =
    (VisitorContext.info [("rule", LName (SchemaRule.name rule))]
       "rule passed" (visit rule ctx (cloneDeep item)).1.1,
     data).
Proof.
  intros Hg He Hd. unfold visitItem. rewrite Hg.
  destruct (visit rule ctx (cloneDeep item)) as [[ctx1 res] node1].
  simpl in *. by rewrite He, Hd.
Qed.

(** The rule passed and changed its copy of the node. *)
Lemma visitItem_passed_modified rule ctx data ref item :
  get ref data = Some item →
  VisitorResult.errors (visit rule ctx (cloneDeep item)).1.2 = [] →
  diff item (visit rule ctx (cloneDeep item)).2 ≠ [] →
  visitItem rule ctx data ref =
    (VisitorContext.info
       [("diff", LDiff (diff item (visit rule ctx (cloneDeep item)).2));
        ("item", LItem item);
        ("rule", LName (SchemaRule.name rule))]
       "rule passed with modifications" (visit rule ctx (cloneDeep item)).1.1,
     if VisitorContext.mutate (VisitorContext.innerOptions ctx)
     then put ref (applyDiff item (visit rule ctx (cloneDeep item)).2) data
     else data).
Proof.
  intros Hg He Hd. unfold visitItem. rewrite Hg.
  destruct (visit_context rule ctx (cloneDeep item)) as ((Ho & _) & _).
  destruct (visit rule ctx (cloneDeep item)) as [[ctx1 res] node1].
  simpl in *. rewrite He. simpl.
  destruct (diff item node1); [done|]. simpl.
  rewrite <- Ho. by destruct (VisitorContext.mutate _).
Qed.

(** The four outcomes of one rule on one node. *)
Lemma visitItem_cases rule ctx data ref :
  get ref data = None
  ∨ ∃ item, get ref data = Some item
      ∧ (VisitorResult.errors (visit rule ctx (cloneDeep item)).1.2 ≠ []
         ∨ VisitorResult.errors (visit rule ctx (cloneDeep item)).1.2 = []
           ∧ (diff item (visit rule ctx (cloneDeep item)).2 = []
              ∨ diff item (visit rule ctx (cloneDeep item)).2 ≠ [])).
Proof.
  destruct (get ref data) as [item|]; [right; exists item; split; [done|] | by left].
  destruct (VisitorResult.errors (visit rule ctx (cloneDeep item)).1.2);
    [right; split; [done|] | by left].
  destruct (diff item (visit rule ctx (cloneDeep item)).2); [by left | by right].
Qed.

Lemma visitItem_guarded rule ref :
  guarded (λ ctx data, visitItem rule ctx data ref).
Proof.
  intros ctx data.
  destruct (visitItem_cases rule ctx data ref)
    as [Hg | (item & Hg & [He | (He & [Hd | Hd])])].
  - rewrite (visitItem_detached _ _ _ _ Hg). simpl.
    split_and!; try done. exists []. by rewrite app_nil_r.
  - rewrite (visitItem_failed _ _ _ _ _ Hg He). simpl.
    destruct (visit_context rule ctx (cloneDeep item)) as (Henv & Hc & Hr).
    rewrite Hc, Hr, visit_changes, app_nil_r. split_and!; try done. eauto.
  - rewrite (visitItem_passed_clean _ _ _ _ _ Hg He Hd). simpl.
    destruct (visit_context rule ctx (cloneDeep item)) as (Henv & Hc & Hr).
    rewrite Hc, Hr. split_and!; try done. exists []. by rewrite app_nil_r.
  - rewrite (visitItem_passed_modified _ _ _ _ _ Hg He Hd). simpl.
    destruct (visit_context rule ctx (cloneDeep item)) as (Henv & Hc & Hr).
    rewrite Hc, Hr. split_and!; try done.
    + exists []. by rewrite app_nil_r.
    + by intros ->.
Qed.

Lemma visitItem_uniform rule ref :
  uniform (λ ctx data, visitItem rule ctx data ref).
Proof.
  intros c1 c2 data Henv.
  assert (∀ item, (visit rule c1 (cloneDeep item)).1.2
                  = (visit rule c2 (cloneDeep item)).1.2) as Hres
    by (intros; by apply visit_uniform).
  assert (∀ item, (visit rule c1 (cloneDeep item)).2
                  = (visit rule c2 (cloneDeep item)).2) as Hnode
    by (intros; by apply visit_uniform).
  destruct (visitItem_cases rule c1 data ref)
    as [Hg | (item & Hg & [He | (He & [Hd | Hd])])].
  - rewrite !(visitItem_detached _ _ _ _ Hg). simpl.
    split; [done|]. exists []. by rewrite !app_nil_r.
  - rewrite (visitItem_failed _ c1 _ _ _ Hg He).
    rewrite Hres in He. rewrite (visitItem_failed _ c2 _ _ _ Hg He).
    simpl. split; [done|].
    exists (VisitorResult.errors (visit rule c2 (cloneDeep item)).1.2).
    destruct (visit_context rule c1 (cloneDeep item)) as (_ & _ & ->).
    destruct (visit_context rule c2 (cloneDeep item)) as (_ & _ & ->).
    by rewrite Hres.
  - rewrite (visitItem_passed_clean _ c1 _ _ _ Hg He Hd).
    rewrite Hres in He. rewrite Hnode in Hd.
    rewrite (visitItem_passed_clean _ c2 _ _ _ Hg He Hd).
    simpl. split; [done|]. exists [].
    destruct (visit_context rule c1 (cloneDeep item)) as (_ & _ & ->).
    destruct (visit_context rule c2 (cloneDeep item)) as (_ & _ & ->).
    by rewrite !app_nil_r.
  - rewrite (visitItem_passed_modified _ c1 _ _ _ Hg He Hd).
    rewrite Hres in He. rewrite Hnode in Hd.
    rewrite (visitItem_passed_modified _ c2 _ _ _ Hg He Hd).
    simpl. destruct Henv as (-> & _ & _). rewrite Hnode.
    split; [done|]. exists [].
    destruct (visit_context rule c1 (cloneDeep item)) as (_ & _ & ->).
    destruct (visit_context rule c2 (cloneDeep item)) as (_ & _ & ->).
    by rewrite !app_nil_r.
Qed.

(** Stretches compose: a loop over stretches is a stretch of the same
    kind. *)
Lemma guarded_foldl {A} (f : VisitorContext.t → value → A → VisitorContext.t * value)
    (xs : list A) :
  (∀ x, guarded (λ ctx data, f ctx data x)) →
  guarded (λ ctx data, foldl (λ st x, f st.1 st.2 x) (ctx, data) xs).
Proof.
  intros Hf. induction xs as [|x xs IH] using rev_ind; intros ctx data.
  - simpl. split_and!; try done. exists []. by rewrite app_nil_r.
  - rewrite foldl_app. simpl.
    destruct (IH ctx data) as (Henv & Hc & (E & He) & Hm).
    set (st := foldl _ (ctx, data) xs) in *.
    destruct (Hf x st.1 st.2) as (Henv' & Hc' & (E' & He') & Hm').
    split_and!.
    + by eapply same_env_trans.
    + congruence.
    + exists (E ++ E'). by rewrite He', He, app_assoc.
    + intros Hmut. rewrite Hm'; [by apply Hm|].
      destruct Henv as (<- & _). done.
Qed.

Lemma uniform_foldl {A} (f : VisitorContext.t → value → A → VisitorContext.t * value)
    (xs : list A) :
  (∀ x, guarded (λ ctx data, f ctx data x)) →
  (∀ x, uniform (λ ctx data, f ctx data x)) →
  uniform (λ ctx data, foldl (λ st x, f st.1 st.2 x) (ctx, data) xs).
Proof.
  intros Hg Hf. induction xs as [|x xs IH] using rev_ind;
    intros c1 c2 data Henv.
  - simpl. split; [done|]. exists []. by rewrite !app_nil_r.
  - rewrite !foldl_app. simpl.
    destruct (IH c1 c2 data Henv) as (Hd & E & He1 & He2).
    pose proof (guarded_foldl f xs Hg c1 data) as (Henv1 & _).
    pose proof (guarded_foldl f xs Hg c2 data) as (Henv2 & _).
    simpl in Henv1, Henv2.
    set (s1 := foldl _ (c1, data) xs) in *.
    set (s2 := foldl _ (c2, data) xs) in *.
    assert (same_env s1.1 s2.1) as Henv'.
    { eapply same_env_trans; [|exact Henv2].
      eapply same_env_trans; [|exact Henv]. by apply same_env_sym. }
    destruct (Hf x s1.1 s2.1 s1.2 Henv') as (Hd' & E' & He1' & He2').
    rewrite <- Hd. split; [done|].
    exists (E ++ E'). by rewrite He1', He2', He1, He2, !app_assoc.
Qed.

End EngineFacts.

Section RunFacts.
Context `{DeltaEngine}.
Implicit Types (rule : SchemaRule.t) (ctx : VisitorContext.t)
  (data : value) (rules : list SchemaRule.t).

Lemma visitItems_guarded rule items :
  guarded (λ ctx data, visitItems rule ctx data items).
Proof.
  apply (guarded_foldl (λ ctx data item, visitItem rule ctx data item)).
  intros ref. apply visitItem_guarded.
Qed.

Lemma visitItems_uniform rule items :
  uniform (λ ctx data, visitItems rule ctx data items).
Proof.
  apply (uniform_foldl (λ ctx data item, visitItem rule ctx data item)).
  - intros ref. apply visitItem_guarded.
  - intros ref. apply visitItem_uniform.
Qed.

(** [pick] only logs, and picks by the capabilities alone. *)
Lemma pick_context rule ctx data :
  same_env ctx (pick rule ctx data).1
  ∧ VisitorContext.changes (pick rule ctx data).1 = VisitorContext.changes ctx
  ∧ VisitorContext.errors (pick rule ctx data).1 = VisitorContext.errors ctx
  ∧ (pick rule ctx data).2
    = VisitorContext.pick ctx (SchemaRule.select rule) data.
Proof. unfold pick. simpl. by destruct (bool_decide _). Qed.

Lemma visitRule_eq rule ctx data :
  visitRule ctx data rule =
    visitItems rule (pick rule ctx data).1 data
      (VisitorContext.pick ctx (SchemaRule.select rule) data).
Proof. done. Qed.

Lemma visitRule_guarded rule : guarded (λ ctx data, visitRule ctx data rule).
Proof.
  intros ctx data. rewrite visitRule_eq.
  destruct (pick_context rule ctx data) as (Henv & Hc & He & _).
  destruct (visitItems_guarded rule
              (VisitorContext.pick ctx (SchemaRule.select rule) data)
              (pick rule ctx data).1 data) as (Henv' & Hc' & He' & Hm).
  rewrite Hc, He in *. split_and!; try done.
  - by eapply same_env_trans.
  - intros Hmut. apply Hm. by destruct Henv as (<- & _).
Qed.

Lemma visitRule_uniform rule : uniform (λ ctx data, visitRule ctx data rule).
Proof.
  intros c1 c2 data Henv. rewrite !visitRule_eq.
  destruct (pick_context rule c1 data) as (Henv1 & _ & He1 & _).
  destruct (pick_context rule c2 data) as (Henv2 & _ & He2 & _).
  assert (same_env (pick rule c1 data).1 (pick rule c2 data).1) as Henv'.
  { eapply same_env_trans; [|exact Henv2].
    eapply same_env_trans; [|exact Henv]. by apply same_env_sym. }
  destruct Henv as (_ & <- & _).
  rewrite <- He1, <- He2.
  by apply (visitItems_uniform rule).
Qed.

Lemma visitRules_guarded rules :
  guarded (λ ctx data, visitRules ctx rules data).
Proof. apply (guarded_foldl visitRule), visitRule_guarded. Qed.

Lemma visitRules_uniform rules :
  uniform (λ ctx data, visitRules ctx rules data).
Proof.
  apply (uniform_foldl visitRule);
    [apply visitRule_guarded | apply visitRule_uniform].
Qed.

(** One rule on one node changes the document in one way only. *)
Lemma visitItem_mutates rule ctx data ref :
  (visitItem rule ctx data ref).2 ≠ data →
  VisitorContext.mutate (VisitorContext.innerOptions ctx) = true
  ∧ ∃ item,
      get ref data = Some item
      ∧ VisitorResult.errors (visit rule ctx (cloneDeep item)).1.2 = []
      ∧ diff item (visit rule ctx (cloneDeep item)).2 ≠ []
      ∧ (visitItem rule ctx data ref).2
        = put ref (applyDiff item (visit rule ctx (cloneDeep item)).2) data.
Proof.
  destruct (visitItem_cases rule ctx data ref)
    as [Hg | (item & Hg & [He | (He & [Hd | Hd])])].
  - by rewrite (visitItem_detached _ _ _ _ Hg).
  - by rewrite (visitItem_failed _ _ _ _ _ Hg He).
  - by rewrite (visitItem_passed_clean _ _ _ _ _ Hg He Hd).
  - rewrite (visitItem_passed_modified _ _ _ _ _ Hg He Hd). simpl.
    destruct (VisitorContext.mutate _); [|done].
    intros _. split; [done|]. by exists item.
Qed.

(** Where every visit reports an error, nothing is written. *)
Lemma visitItems_all_failing rule ctx data items :
  (∀ c item, same_env ctx c →
     VisitorResult.errors (visit rule c (cloneDeep item)).1.2 ≠ []) →
  (visitItems rule ctx data items).2 = data.
Proof.
  intros Hfail. unfold visitItems.
  induction items as [|ref items IH] using rev_ind; [done|].
  rewrite foldl_app. simpl.
  destruct (visitItems_guarded rule items ctx data) as (Henv & _).
  unfold visitItems in Henv.
  set (st := foldl _ (ctx, data) items) in *.
  trans st.2; [|exact IH].
  destruct (visitItem_cases rule st.1 st.2 ref)
    as [Hg | (item & Hg & [He | (He & _)])].
  - by rewrite (visitItem_detached _ _ _ _ Hg).
  - by rewrite (visitItem_failed _ _ _ _ _ Hg He).
  - by destruct (Hfail st.1 item).
Qed.

Lemma visitRules_all_failing ctx rules data :
  (∀ rule c item, rule ∈ rules → same_env ctx c →
     VisitorResult.errors (visit rule c (cloneDeep item)).1.2 ≠ []) →
  (visitRules ctx rules data).2 = data.
Proof.
  intros Hfail. unfold visitRules.
  induction rules as [|rule rules IH] using rev_ind; [done|].
  rewrite foldl_app. simpl.
  destruct (visitRules_guarded rules ctx data) as (Henv & _).
  unfold visitRules in Henv.
  rewrite IH in * by (intros; apply Hfail; [apply elem_of_app; by left | done]).
  set (st := foldl _ (ctx, data) rules) in *.
  rewrite visitRule_eq.
  destruct (pick_context rule st.1 data) as (Henv' & _).
  rewrite visitItems_all_failing; [done|].
  intros c item Hc. apply Hfail.
  - apply elem_of_app. right. left.
  - eapply same_env_trans; [exact Henv|]. by eapply same_env_trans.
Qed.

End RunFacts.

(** C1, as stated, fails: a node can be changed by a rule whose visit of
    that node's working copy reports an error. The rule [child-tagged] picks
    a node and the node inside it. On the outer node it passes and tags the
    inner node; on the inner node, before and after that, it reports an
    error. In a run that may mutate, the inner node ends up tagged and the
    report holds the error. *)
Lemma visitRules_mutation_guarded_counterexample :
  let ctx := familyContext true in
  let inner := [Key "parent"; Key "child"] in
  let tagged := VObj {["tag" := VStr "default"]} in
  let run := @visitRules structural ctx [childTagged] family in
  VisitorContext.pick ctx (SchemaRule.select childTagged) family
    = [[Key "parent"]; inner]
  ∧ get inner family = Some (VObj ∅)
  ∧ get inner run.2 = Some tagged
  ∧ VisitorResult.errors (visit childTagged ctx (cloneDeep (VObj ∅))).1.2 ≠ []
  ∧ VisitorResult.errors (visit childTagged ctx (cloneDeep tagged)).1.2 ≠ []
  ∧ length (VisitorContext.errors run.1) = 1.
Proof. vm_compute. split_and!; done. Qed.

(** C1, amended. Whatever the delta engine, the rules and the document: one
    rule on one picked node changes the document only if the run may mutate
    and the rule's visit of the picked node's working copy reported no
    error, and then only at or below the picked node: a node is changed by
    the step only if it is the picked node, lies inside it or holds it, and
    a node inside the picked node may be rewritten whatever the rule reports
    on that inner node itself. A run that changes the document is a run that
    may mutate; a run in which every visit reports an error leaves the
    document as it was; and a run that may not mutate, run once and then
    again from the context the first run left, leaves the document as it was
    both times and adds the same errors to the report both times. *)
Theorem visitRules_mutation_guarded `{DeltaEngine}
    (ctx : VisitorContext.t) (rules : list SchemaRule.t) (data : value) :
  (∀ rule ref,
     (visitItem rule ctx data ref).2 ≠ data →
     VisitorContext.mutate (VisitorContext.innerOptions ctx) = true
     ∧ (∃ item,
          get ref data = Some item
          ∧ VisitorResult.errors (visit rule ctx (cloneDeep item)).1.2 = []
          ∧ (visitItem rule ctx data ref).2
            = put ref (applyDiff item (visit rule ctx (cloneDeep item)).2) data)
     ∧ ∀ q, apart ref q →
         get q (visitItem rule ctx data ref).2 = get q data)
  ∧ (∀ rule ref q,
       get q (visitItem rule ctx data ref).2 ≠ get q data →
       VisitorContext.mutate (VisitorContext.innerOptions ctx) = true
       ∧ (∃ item,
            get ref data = Some item
            ∧ VisitorResult.errors (visit rule ctx (cloneDeep item)).1.2 = [])
       ∧ ¬ apart ref q)
  ∧ ((visitRules ctx rules data).2 ≠ data →
     VisitorContext.mutate (VisitorContext.innerOptions ctx) = true)
  ∧ ((∀ rule c item, rule ∈ rules → same_env ctx c →
        VisitorResult.errors (visit rule c (cloneDeep item)).1.2 ≠ []) →
     (visitRules ctx rules data).2 = data)
  ∧ (VisitorContext.mutate (VisitorContext.innerOptions ctx) = false →
     let first := visitRules ctx rules data in
     let second := visitRules first.1 rules first.2 in
     first.2 = data
     ∧ second.2 = data
     ∧ ∃ E,
         VisitorContext.errors first.1 = VisitorContext.errors ctx ++ E
         ∧ VisitorContext.errors second.1
           = VisitorContext.errors first.1 ++ E).
Proof.
  split_and!.
  - intros rule ref Hne.
    destruct (visitItem_mutates rule ctx data ref Hne)
      as (Hmut & item & Hg & He & _ & Hput).
    split_and!; [done | by exists item |].
    intros q Hq. rewrite Hput. by apply get_put_apart.
  - intros rule ref q Hq.
    assert ((visitItem rule ctx data ref).2 ≠ data) as Hne
      by (intros Heq; by rewrite Heq in Hq).
    destruct (visitItem_mutates rule ctx data ref Hne)
      as (Hmut & item & Hg & He & _ & Hput).
    split_and!; [done | by exists item |].
    intros Hapart. apply Hq. rewrite Hput. by apply get_put_apart.
  - intros Hne.
    destruct (VisitorContext.mutate _) eqn:Hmut; [done|].
    destruct (visitRules_guarded rules ctx data) as (_ & _ & _ & Hm).
    by destruct Hne; apply Hm.
  - apply visitRules_all_failing.
  - intros Hmut first second.
    destruct (visitRules_guarded rules ctx data) as (Henv & _ & _ & Hm).
    fold first in Henv, Hm. specialize (Hm Hmut).
    destruct (visitRules_uniform rules ctx first.1 data Henv)
      as (Hd & E & He1 & He2).
    fold first in Hd, He1. subst second. rewrite Hm.
    split_and!; [done | by rewrite <- Hd |]. by exists E.
Qed.

Lemma visitRules_mutation_guarded_witness :
  let ref := [Key "servers"; Idx 0] in
  let step := @visitItem structural tagDefault (freshContext true) inventory ref in
  let dry :=
    @visitRules structural (freshContext false) [portRequired; tagDefault]
      inventory in
  let refused :=
    @visitRules structural (refusingContext true) [portRequired; tagDefault]
      inventory in
  VisitorResult.errors
    (visit tagDefault (freshContext true) (cloneDeep serverA)).1.2 = []
  ∧ get [Key "servers"; Idx 1] step.2 = Some serverB
  ∧ ¬ apart ref (ref ++ [Key "tag"])
  ∧ refused.2 = inventory
  ∧ dry.2 = inventory.
Proof.
  intros ref step dry refused.
  assert (step.2 ≠ inventory) as Hne.
  { intros Heq. apply (f_equal (get (ref ++ [Key "tag"]))) in Heq.
    vm_compute in Heq. discriminate Heq. }
  destruct (proj1 (@visitRules_mutation_guarded structural (freshContext true)
                     [tagDefault] inventory) tagDefault ref Hne)
    as (_ & (item & Hitem & Herr & _) & Hframe).
  split_and!.
  - assert (item = serverA) as <-
      by (apply (inj Some); rewrite <- Hitem; reflexivity).
    exact Herr.
  - rewrite Hframe; [reflexivity|]. by split; intros r [=].
  - apply (proj1 (proj2 (@visitRules_mutation_guarded structural
                           (freshContext true) [tagDefault] inventory))
             tagDefault ref (ref ++ [Key "tag"])).
    vm_compute. discriminate.
  - apply (proj1 (proj2 (proj2 (proj2 (@visitRules_mutation_guarded structural
                                  (refusingContext true)
                                  [portRequired; tagDefault] inventory))))).
    intros rule c node Hrule (_ & _ & Hc).
    assert (SchemaRule.filter rule = None) as Hnone.
    { apply elem_of_cons in Hrule as [-> | Hrule]; [done|].
      apply list_elem_of_singleton in Hrule as ->. done. }
    assert (valid (compileFilter rule c (cloneDeep node)) = true) as Hf
      by (unfold compileFilter; by rewrite Hnone).
    rewrite (visit_checked _ _ _ Hf). simpl. unfold reported.
    by rewrite <- Hc.
  - apply (proj2 (proj2 (proj2 (proj2 (@visitRules_mutation_guarded structural
                           (freshContext false) [portRequired; tagDefault]
                           inventory))))).
    reflexivity.
Defined.

(** ** The two scenarios, run *)

(** The rule [port-required] on the inventory: one error, for the first
    server; the second server has a port. *)
Example scenario_port_required :
  let run := @visitRules structural (freshContext false) [portRequired]
               inventory in
  VisitorContext.errors run.1
    = [{| errRule := portRequired; errPath := "."; errMsg := "port" |}]
  ∧ run.2 = inventory.
Proof. vm_compute. split; reflexivity. Qed.

(** The rule [tag-default] on the inventory: a run that may mutate gives
    both servers the tag, a run that may not leaves the inventory alone. *)
Example scenario_tag_default :
  let wet := @visitRules structural (freshContext true) [tagDefault] inventory in
  let dry := @visitRules structural (freshContext false) [tagDefault] inventory in
  get [Key "servers"; Idx 0; Key "tag"] wet.2 = Some (VStr "default")
  ∧ get [Key "servers"; Idx 1; Key "tag"] wet.2 = Some (VStr "default")
  ∧ get [Key "servers"; Idx 1; Key "port"] wet.2 = Some (VNum 80)
  ∧ dry.2 = inventory.
Proof. vm_compute. split_and!; reflexivity. Qed.

(** ** Failing, skipped and silently rejected nodes *)

(** C5, as stated, fails: the check of [quiet] rejects the first server and
    exposes no descriptor; [visit] then reports no error, the engine computes
    the delta of the node, logs a pass with modifications and, as the run may
    mutate, writes the delta into the document. *)
Lemma visitItem_rejected_counterexample :
  let ctx := freshContext true in
  let ref := [Key "servers"; Idx 0] in
  let checked :=
    VisitorContext.compile ctx (SchemaRule.check quiet) (cloneDeep serverA) in
  let step := @visitItem structural quiet ctx inventory ref in
  get ref inventory = Some serverA
  ∧ valid checked = false
  ∧ VisitorContext.errors step.1 = []
  ∧ logMsg <$> last (VisitorContext.logger step.1)
    = Some "rule passed with modifications"
  ∧ get (ref ++ [Key "tag"]) inventory = None
  ∧ get (ref ++ [Key "tag"]) step.2 = Some (VStr "default").
Proof. vm_compute. split_and!; reflexivity. Qed.

(** C5, amended. Take a node that the filter accepts and that the check
    rejects with at least one descriptor. Then [visit] returns one error per
    descriptor, in order, each carrying the rule; the engine appends these
    errors to the report, leaves the recorded changes and the document as
    they were, does the same whatever the delta engine is (no delta is
    computed), and goes on with the remaining nodes, and then with the
    remaining rules, from there. *)
Theorem visitItem_rejected `{DeltaEngine} (rule : SchemaRule.t)
    (ctx : VisitorContext.t) (data : value) (ref : path) (item : value)
    (e : ErrorObject) (es : list ErrorObject) :
  let filtered := compileFilter rule ctx (cloneDeep item) in
  let checked :=
    VisitorContext.compile ctx (SchemaRule.check rule) (vdata filtered) in
  let result := (visit rule ctx (cloneDeep item)).1.2 in
  let step := visitItem rule ctx data ref in
  get ref data = Some item →
  valid filtered = true →
  valid checked = false →
  verrors checked = Some (e :: es) →
  VisitorResult.errors result
    = (λ err, friendlyError ctx err rule) <$> (e :: es)
  ∧ length (VisitorResult.errors result) = length (e :: es)
  ∧ Forall (λ err, errRule err = rule) (VisitorResult.errors result)
  ∧ VisitorContext.errors step.1
    = VisitorContext.errors ctx ++ VisitorResult.errors result
  ∧ VisitorContext.changes step.1 = VisitorContext.changes ctx
  ∧ step.2 = data
  ∧ (∀ other : DeltaEngine, @visitItem other rule ctx data ref = step)
  ∧ (∀ rest, visitItems rule ctx data (ref :: rest)
             = visitItems rule step.1 data rest)
  ∧ (∀ rules, visitRules ctx (rule :: rules) data
              = visitRules (visitRule ctx data rule).1 rules
                  (visitRule ctx data rule).2).
Proof.
  intros filtered checked result step Hg Hf Hc He.
  assert (VisitorResult.errors result
          = (λ err, friendlyError ctx err rule) <$> (e :: es)) as Hres.
  { subst result. rewrite (visit_checked _ _ _ Hf). simpl.
    unfold reported. fold filtered. fold checked. by rewrite Hc, He. }
  assert (VisitorResult.errors result ≠ []) as Hne by by rewrite Hres.
  assert (∀ other : DeltaEngine,
            @visitItem other rule ctx data ref
            = (VisitorContext.mergeResult
                 (VisitorContext.warn
                    [("count", LCount (length (VisitorResult.errors result)));
                     ("rule", LRule rule)]
                    "rule failed" (visit rule ctx (cloneDeep item)).1.1)
                 result, data)) as Hstep
    by (intros other; by apply (@visitItem_failed other)).
  destruct (visit_context rule ctx (cloneDeep item)) as (_ & Hch & Her).
  split_and!.
  - done.
  - by rewrite Hres, length_fmap.
  - rewrite Hres. apply Forall_fmap, Forall_forall. by intros.
  - subst step. rewrite Hstep. simpl. by rewrite Her.
  - subst step. rewrite Hstep. simpl.
    subst result. by rewrite Hch, visit_changes, app_nil_r.
  - subst step. by rewrite Hstep.
  - intros other. subst step. by rewrite !Hstep.
  - intros rest. subst step. unfold visitItems. simpl.
    by rewrite Hstep.
  - intros rules. unfold visitRules. simpl.
    by destruct (visitRule ctx data rule).
Qed.

Lemma visitItem_rejected_witness :
  let ctx := freshContext true in
  let ref := [Key "servers"; Idx 0] in
  let step := @visitItem structural portRequired ctx inventory ref in
  length (VisitorResult.errors (visit portRequired ctx (cloneDeep serverA)).1.2)
    = 1
  ∧ VisitorContext.errors step.1
    = [friendlyError ctx {| dataPath := "."; message := "port" |} portRequired]
  ∧ step.2 = inventory.
Proof.
  intros ctx ref step.
  destruct (@visitItem_rejected structural portRequired ctx inventory ref
              serverA {| dataPath := "."; message := "port" |} [])
    as (Hres & Hlen & _ & Herr & _ & Hdoc & _);
    [reflexivity | reflexivity | reflexivity | reflexivity |].
  split_and!; [exact Hlen | | exact Hdoc].
  etrans; [exact Herr|]. by rewrite Hres.
Defined.

(** C6. A node that the rule's filter rejects gets a result with no errors
    and no changes, and the check has no part in it: the node is left as the
    filter left it, and a rule with the same filter and any other check
    gives the same result. A rule without a filter checks every node: the
    result carries what the check reports on the node as it was given. *)
Theorem visit_filter (rule : SchemaRule.t) (ctx : VisitorContext.t)
    (node : value) :
  (∀ schema,
     SchemaRule.filter rule = Some schema →
     valid (VisitorContext.compile ctx schema node) = false →
     (visit rule ctx node).1.2 = VisitorResult.mk [] []
     ∧ (visit rule ctx node).2 = vdata (VisitorContext.compile ctx schema node)
     ∧ ∀ rule',
         SchemaRule.filter rule' = SchemaRule.filter rule →
         (visit rule' ctx node).1.2 = (visit rule ctx node).1.2
         ∧ (visit rule' ctx node).2 = (visit rule ctx node).2)
  ∧ (SchemaRule.filter rule = None →
     let checked := VisitorContext.compile ctx (SchemaRule.check rule) node in
     compileFilter rule ctx node
       = {| valid := true; verrors := None; vdata := node |}
     ∧ (visit rule ctx node).1.2
       = VisitorResult.mk [] (reported rule ctx checked)
     ∧ (visit rule ctx node).2 = vdata checked
     ∧ (logMsg <$> VisitorContext.logger (visit rule ctx node).1.1)
       = (logMsg <$> VisitorContext.logger ctx)
         ++ ["visiting node"; "checking item"]).
Proof.
  split.
  - intros schema Hs Hv.
    assert (∀ rule', SchemaRule.filter rule' = Some schema →
              visit rule' ctx node
              = (VisitorContext.debug
                   [("errors",
                     LErrors (verrors (VisitorContext.compile ctx schema node)));
                    ("item",
                     LItem (vdata (VisitorContext.compile ctx schema node)))]
                   "skipping item"
                   (VisitorContext.debug
                      [("item", LItem node); ("rule", LRule rule')]
                      "visiting node" ctx),
                 VisitorResult.mk [] [],
                 vdata (VisitorContext.compile ctx schema node))) as Hskip.
    { intros rule' Hs'.
      assert (compileFilter rule' ctx = VisitorContext.compile ctx schema)
        as Hcf by (unfold compileFilter; by rewrite Hs').
      rewrite visit_skipped; rewrite Hcf; done. }
    rewrite (Hskip rule Hs). split_and!; try done.
    intros rule' Hs'. rewrite Hskip; [done | congruence].
  - intros Hnone checked.
    assert (compileFilter rule ctx node
            = {| valid := true; verrors := None; vdata := node |}) as Hcf
      by (unfold compileFilter; by rewrite Hnone).
    rewrite visit_checked; rewrite Hcf; [|done]. simpl.
    split_and!; try done.
    by rewrite !fmap_app, <- app_assoc.
Qed.

Lemma visit_filter_witness :
  let ctx := freshContext false in
  (visit tagRequired ctx serverA).1.2 = VisitorResult.mk [] []
  ∧ VisitorResult.errors (visit portRequired ctx serverA).1.2
    = [friendlyError ctx {| dataPath := "."; message := "port" |} portRequired].
Proof.
  intros ctx. split.
  - apply (proj1 (visit_filter tagRequired ctx serverA)
             (VObj {["required" := VArr [VStr "port"]]}));
      reflexivity.
  - destruct (proj2 (visit_filter portRequired ctx serverA))
      as (_ & Hres & _); [reflexivity|].
    by rewrite Hres.
Defined.

(** C10. Take a node that the filter accepts and that the check rejects
    while exposing no descriptor, be the list empty or absent. Then [visit]
    returns no error and the engine treats the node as passing: nothing is
    added to the report; if the check left its copy of the node as it was,
    the engine logs a pass; if not, it logs a pass with modifications and,
    when the run may mutate, writes the modified copy into the document. *)
Theorem visitItem_silent_rejection `{DeltaEngine} (rule : SchemaRule.t)
    (ctx : VisitorContext.t) (data : value) (ref : path) (item : value) :
  let filtered := compileFilter rule ctx (cloneDeep item) in
  let checked :=
    VisitorContext.compile ctx (SchemaRule.check rule) (vdata filtered) in
  let visited := visit rule ctx (cloneDeep item) in
  let step := visitItem rule ctx data ref in
  get ref data = Some item →
  valid filtered = true →
  valid checked = false →
  verrors checked = None ∨ verrors checked = Some [] →
  VisitorResult.errors visited.1.2 = []
  ∧ visited.2 = vdata checked
  ∧ VisitorContext.errors step.1 = VisitorContext.errors ctx
  ∧ (diff item (vdata checked) = [] →
     step = (VisitorContext.info [("rule", LName (SchemaRule.name rule))]
               "rule passed" visited.1.1,
             data))
  ∧ (diff item (vdata checked) ≠ [] →
     step = (VisitorContext.info
               [("diff", LDiff (diff item (vdata checked)));
                ("item", LItem item);
                ("rule", LName (SchemaRule.name rule))]
               "rule passed with modifications" visited.1.1,
             if VisitorContext.mutate (VisitorContext.innerOptions ctx)
             then put ref (applyDiff item (vdata checked)) data
             else data)).
Proof.
  intros filtered checked visited step Hg Hf Hc He.
  assert (visited = (visited.1.1, VisitorResult.mk [] [], vdata checked))
    as Hv.
  { subst visited. rewrite (visit_checked _ _ _ Hf). simpl.
    unfold reported. fold filtered. fold checked.
    by destruct He as [-> | ->]; rewrite Hc. }
  assert (VisitorResult.errors visited.1.2 = []) as Hno by by rewrite Hv.
  assert (visited.2 = vdata checked) as Hw by by rewrite Hv.
  destruct (visit_context rule ctx (cloneDeep item)) as (_ & _ & Her).
  fold visited in Her.
  assert (diff item (vdata checked) = [] →
     step = (VisitorContext.info [("rule", LName (SchemaRule.name rule))]
               "rule passed" visited.1.1, data)) as Hclean.
  { intros Hd. subst step visited.
    apply visitItem_passed_clean; [done | done | by rewrite Hw]. }
  assert (diff item (vdata checked) ≠ [] →
     step = (VisitorContext.info
               [("diff", LDiff (diff item (vdata checked)));
                ("item", LItem item);
                ("rule", LName (SchemaRule.name rule))]
               "rule passed with modifications" visited.1.1,
             if VisitorContext.mutate (VisitorContext.innerOptions ctx)
             then put ref (applyDiff item (vdata checked)) data
             else data)) as Hmod.
  { intros Hd. subst step. rewrite <- Hw. subst visited.
    apply visitItem_passed_modified; [done | done | by rewrite Hw]. }
  split_and!; try done.
  destruct (diff item (vdata checked)) as [|op ops] eqn:Hd.
  - by rewrite Hclean.
  - by rewrite Hmod.
Qed.

Lemma visitItem_silent_rejection_witness :
  let ctx := freshContext true in
  let ref := [Key "servers"; Idx 0] in
  let step := @visitItem structural quiet ctx inventory ref in
  VisitorResult.errors (visit quiet ctx (cloneDeep serverA)).1.2 = []
  ∧ VisitorContext.errors step.1 = []
  ∧ get (ref ++ [Key "tag"]) step.2 = Some (VStr "default").
Proof.
  intros ctx ref step.
  destruct (@visitItem_silent_rejection structural quiet ctx inventory ref
              serverA)
    as (Hno & _ & Herr & _ & Hmod);
    [reflexivity | reflexivity | reflexivity | left; reflexivity |].
  split_and!; [exact Hno | exact Herr |].
  subst step. rewrite Hmod; [|by vm_compute]. by vm_compute.
Defined.

(** ** Dry runs *)

(** C7, as stated, fails: in a run that may not mutate, [tagDefault] passes
    on the first server with a delta of one operation; the document is left
    as it was, but the context's report holds no change and no error after
    the run. *)
Lemma visitRules_dry_run_counterexample :
  let ctx := freshContext false in
  let visited := visit tagDefault ctx (cloneDeep serverA) in
  let run := @visitRules structural ctx [tagDefault] inventory in
  get [Key "servers"; Idx 0] inventory = Some serverA
  ∧ VisitorResult.errors visited.1.2 = []
  ∧ Delta.diff serverA visited.2 = [Added [Key "tag"] (VStr "default")]
  ∧ run.2 = inventory
  ∧ VisitorContext.changes run.1 = []
  ∧ VisitorContext.errors run.1 = [].
Proof. vm_compute. split_and!; reflexivity. Qed.

(** C7, amended. In a run that may not mutate, a rule that passes on a node
    with a non-empty delta leaves the document and the context's report
    (changes and errors) as they were; the would-be change is written to the
    log only, as the delta bound to the line [rule passed with
    modifications]. No run records a change in the report, and no run that
    may not mutate changes the document. *)
Theorem visitItem_dry_run `{DeltaEngine} (rule : SchemaRule.t)
    (ctx : VisitorContext.t) (data : value) (ref : path) (item : value) :
  let visited := visit rule ctx (cloneDeep item) in
  let step := visitItem rule ctx data ref in
  VisitorContext.mutate (VisitorContext.innerOptions ctx) = false →
  get ref data = Some item →
  VisitorResult.errors visited.1.2 = [] →
  diff item visited.2 ≠ [] →
  step.2 = data
  ∧ VisitorContext.changes step.1 = VisitorContext.changes ctx
  ∧ VisitorContext.errors step.1 = VisitorContext.errors ctx
  ∧ last (VisitorContext.logger step.1)
    = Some {| logLevel := Info;
              logFields := [("diff", LDiff (diff item visited.2));
                            ("item", LItem item);
                            ("rule", LName (SchemaRule.name rule))];
              logMsg := "rule passed with modifications" |}
  ∧ ∀ rules,
      (visitRules ctx rules data).2 = data
      ∧ VisitorContext.changes (visitRules ctx rules data).1
        = VisitorContext.changes ctx.
Proof.
  intros visited step Hmut Hg He Hd.
  assert (step = (VisitorContext.info
                    [("diff", LDiff (diff item visited.2));
                     ("item", LItem item);
                     ("rule", LName (SchemaRule.name rule))]
                    "rule passed with modifications" visited.1.1,
                  data)) as Hstep.
  { subst step visited.
    rewrite (visitItem_passed_modified _ _ _ _ _ Hg He Hd). by rewrite Hmut. }
  destruct (visit_context rule ctx (cloneDeep item)) as (_ & Hch & Her).
  rewrite Hstep. simpl. split_and!; try done.
  - by rewrite last_snoc.
  - intros rules.
    destruct (visitRules_guarded rules ctx data) as (_ & Hc & _ & Hm).
    split; [by apply Hm | done].
Qed.

Lemma visitItem_dry_run_witness :
  let ctx := freshContext false in
  let ref := [Key "servers"; Idx 0] in
  let step := @visitItem structural tagDefault ctx inventory ref in
  step.2 = inventory
  ∧ VisitorContext.changes step.1 = []
  ∧ (logFields <$> last (VisitorContext.logger step.1))
    = Some [("diff", LDiff [Added [Key "tag"] (VStr "default")]);
            ("item", LItem serverA);
            ("rule", LName "tag-default")].
Proof.
  intros ctx ref step.
  destruct (@visitItem_dry_run structural tagDefault ctx inventory ref serverA)
    as (Hdoc & Hch & _ & Hlog & _);
    [reflexivity | reflexivity | reflexivity | by vm_compute |].
  split_and!; [exact Hdoc | exact Hch |].
  subst step. by rewrite Hlog.
Defined.

(** ** Induction on trees *)

Lemma vsize_item (xs : list value) (x : value) :
  x ∈ xs → vsize x < vsize (VArr xs).
Proof.
  intros Hin. simpl. induction Hin as [x xs | x y xs _ IH]; simpl; lia.
Qed.

Lemma vsize_field (m : gmap string value) (k : string) (x : value) :
  m !! k = Some x → vsize x < vsize (VObj m).
Proof.
  intros Hk.
  change (vsize (VObj m)) with (S (map_fold (λ _ x n, vsize x + n) 0 m)).
  rewrite (map_fold_delete_L _ _ k x m); [lia | intros; lia | done].
Qed.

Lemma value_ind' (P : value → Prop) :
  P VNull →
  (∀ b, P (VBool b)) →
  (∀ n, P (VNum n)) →
  (∀ s, P (VStr s)) →
  (∀ xs, Forall P xs → P (VArr xs)) →
  (∀ m, map_Forall (λ _, P) m → P (VObj m)) →
  ∀ v, P v.
Proof.
  intros Hnull Hbool Hnum Hstr Harr Hobj v.
  remember (vsize v) as n eqn:Hn. revert v Hn.
  induction n as [n IH] using lt_wf_ind. intros v ->.
  destruct v as [| | | |xs|m]; auto.
  - apply Harr, Forall_forall. intros x Hx.
    by eapply IH; [apply vsize_item|].
  - apply Hobj. intros k x Hk.
    by eapply IH; [eapply vsize_field|].
Qed.

(** ** The structural delta engine *)

Section DeltaFacts.
Import Delta.
Implicit Types (s : seg) (op : DeltaOp) (ops : list DeltaOp)
  (c x y : value) (xs ys pre : list value) (m ma mb : gmap string value).

Lemma diff_arr xs ys : diff (VArr xs) (VArr ys) = diffItems diff 0 xs ys.
Proof. done. Qed.

Lemma diff_obj ma mb : diff (VObj ma) (VObj mb) = diffFields diff ma mb.
Proof. done. Qed.

Lemma apply_app c ops1 ops2 :
  apply c (ops1 ++ ops2) = apply (apply c ops1) ops2.
Proof. apply foldl_app. Qed.

Lemma rooted_under s op : rooted (under s op).
Proof. by destruct op. Qed.

Lemma Forall_rooted_under s ops : Forall rooted (under s <$> ops).
Proof. apply Forall_fmap, Forall_forall. intros. apply rooted_under. Qed.

(** Children of containers. *)
Lemma put_child_id s c x : child s c = Some x → put_child s x c = c.
Proof.
  destruct s as [k|i], c as [| | | |xs|m]; simpl; try done.
  - intros Hk. by rewrite insert_id.
  - intros Hi. rewrite bool_decide_true by by eapply lookup_lt_Some.
    by rewrite list_insert_id.
Qed.

Lemma child_put_child s c x :
  is_Some (child s c) → child s (put_child s x c) = Some x.
Proof.
  destruct s as [k|i], c as [| | | |xs|m]; simpl; intros [y Hy]; try done.
  - by rewrite lookup_insert_eq.
  - pose proof (lookup_lt_Some _ _ _ Hy). rewrite bool_decide_true by done.
    simpl. by rewrite list_lookup_insert_eq.
Qed.

Lemma put_child_put_child s c x y :
  is_Some (child s c) →
  put_child s y (put_child s x c) = put_child s y c.
Proof.
  destruct s as [k|i], c as [| | | |xs|m]; simpl; intros [z Hz]; try done.
  - by rewrite insert_insert_eq.
  - pose proof (lookup_lt_Some _ _ _ Hz). rewrite !bool_decide_true by done.
    simpl. rewrite length_insert, bool_decide_true by done.
    by rewrite list_insert_insert_eq.
Qed.

Lemma modify_child s c x (g : value → value) :
  child s c = Some x → modify [s] g c = put_child s (g x) c.
Proof.
  destruct s as [k|i], c as [| | | |xs|m]; simpl; intros Hx; try done.
  - f_equal. apply map_eq. intros j.
    destruct (decide (k = j)) as [->|].
    + by rewrite lookup_alter_eq, lookup_insert_eq, Hx.
    + by rewrite lookup_alter_ne, lookup_insert_ne.
  - pose proof (lookup_lt_Some _ _ _ Hx). rewrite bool_decide_true by done.
    f_equal. apply list_eq. intros j.
    destruct (decide (i = j)) as [->|].
    + by rewrite list_lookup_alter_eq, list_lookup_insert_eq, Hx.
    + by rewrite list_lookup_alter_ne, list_lookup_insert_ne.
Qed.

(** An operation on a child, replayed on the parent, replays on the
    child. *)
Lemma applyChange_under s op c x :
  child s c = Some x → rooted op →
  applyChange c (under s op) = put_child s (applyChange x op) c.
Proof.
  intros Hx Hop. destruct op as [p r|p r|p]; simpl.
  - destruct p as [|t q]; [done|]. by apply modify_child.
  - destruct p as [|t q]; [done|]. by apply modify_child.
  - destruct p as [|t q]; [done|]. by apply modify_child.
Qed.

Lemma apply_under s ops c x :
  child s c = Some x → Forall rooted ops →
  apply c (under s <$> ops) = put_child s (apply x ops) c.
Proof.
  intros Hx Hops. revert c x Hx.
  induction Hops as [|op ops Hop _ IH]; intros c x Hx; simpl.
  - by rewrite put_child_id.
  - unfold apply in *. simpl.
    rewrite (applyChange_under _ _ _ _ Hx Hop).
    rewrite (IH _ (applyChange x op)) by by apply child_put_child.
    by apply put_child_put_child.
Qed.

(** *** Arrays *)

Lemma apply_added_items pre ys i :
  i = length pre →
  apply (VArr pre) (imap (λ j y, Added [Idx (i + j)] y) ys)
  = VArr (pre ++ ys).
Proof.
  revert pre i. induction ys as [|y ys IH]; intros pre i ->; simpl.
  - by rewrite app_nil_r.
  - unfold apply in *. simpl.
    rewrite bool_decide_false by lia.
    rewrite (imap_ext _ (λ j z, Added [Idx (length (pre ++ [y]) + j)] z)).
    + rewrite IH by done. by rewrite <- app_assoc.
    + intros j z _. simpl. rewrite length_app. simpl.
      do 2 f_equal. f_equal. lia.
Qed.

Lemma apply_removed_items pre xs :
  apply (VArr (pre ++ xs))
    ((λ j, Removed [Idx j]) <$> reverse (seq (length pre) (length xs)))
  = VArr pre.
Proof.
  induction xs as [|x xs IH] using rev_ind; simpl.
  - by rewrite app_nil_r.
  - rewrite length_app. simpl. rewrite seq_app, reverse_app. simpl.
    unfold apply in *. simpl.
    rewrite app_assoc.
    replace (length pre + length xs) with (length (pre ++ xs))
      by by rewrite length_app.
    rewrite delete_middle, app_nil_r. apply IH.
Qed.

Lemma apply_diffItems pre xs ys :
  Forall (λ x, ∀ y, apply x (diff x y) = y) xs →
  (∀ x y, Forall rooted (diff x y)) →
  apply (VArr (pre ++ xs)) (diffItems diff (length pre) xs ys)
  = VArr (pre ++ ys).
Proof.
  intros Hxs Hrooted. revert pre ys.
  induction Hxs as [|x xs Hx _ IH]; intros pre ys.
  - rewrite app_nil_r. destruct ys; by apply apply_added_items.
  - destruct ys as [|y ys].
    + rewrite app_nil_r. apply apply_removed_items.
    + simpl. rewrite apply_app.
      rewrite (apply_under _ _ _ x);
        [| by simpl; rewrite list_lookup_middle | done].
      rewrite Hx. simpl.
      rewrite bool_decide_true by (rewrite length_app; simpl; lia).
      replace (length pre) with (length pre + 0) at 1 by lia.
      rewrite insert_app_r. simpl.
      rewrite (cons_middle y pre xs), app_assoc.
      replace (S (length pre)) with (length (pre ++ [y]))
        by (rewrite length_app; simpl; lia).
      rewrite IH. by rewrite <- app_assoc.
Qed.

Lemma diffItems_same i xs :
  Forall (λ x, diff x x = []) xs → diffItems diff i xs xs = [].
Proof.
  intros Hxs. revert i. induction Hxs as [|x xs Hx _ IH]; intros i; simpl.
  - done.
  - by rewrite Hx, IH.
Qed.

Lemma diffItems_rooted (d : value → value → list DeltaOp) i xs ys :
  Forall rooted (diffItems d i xs ys).
Proof.
  revert i ys. induction xs as [|x xs IH]; intros i ys.
  - destruct ys; simpl; [done|].
    apply Forall_cons. split; [done|].
    apply Forall_forall. intros op Hop.
    apply elem_of_lookup_imap in Hop as (j & z & -> & _). done.
  - destruct ys as [|y ys].
    + apply Forall_fmap, Forall_forall. by intros.
    + simpl. apply Forall_app. split; [apply Forall_rooted_under | apply IH].
Qed.

(** *** Objects *)

Lemma apply_diffLeft mb (l : list (string * value)) m0 :
  NoDup l.*1 →
  (∀ k x, (k, x) ∈ l → m0 !! k = Some x ∧ ∀ y, apply x (diff x y) = y) →
  (∀ x y, Forall rooted (diff x y)) →
  ∃ m1,
    apply (VObj m0) (foldr (uncurry (diffLeft diff mb)) [] l) = VObj m1
    ∧ ∀ j, m1 !! j = if decide (j ∈ l.*1) then mb !! j else m0 !! j.
Proof.
  intros Hnd Hl Hrooted. revert m0 Hl.
  induction l as [|[k x] l IH]; intros m0 Hl.
  - exists m0. split; [done|]. intros j.
    case_decide as Hj; [by apply elem_of_nil in Hj | done].
  - apply NoDup_cons in Hnd as [Hk Hnd].
    destruct (Hl k x) as [Hkx Hx]; [left|].
    assert (∀ m', (∀ j, j ≠ k → m' !! j = m0 !! j) →
              ∀ k' x', (k', x') ∈ l →
                m' !! k' = Some x' ∧ ∀ y, apply x' (diff x' y) = y) as Hl'.
    { intros m' Hm' k' x' Hin.
      destruct (Hl k' x') as [Hk' Hx']; [by right|]. split; [|done].
      rewrite Hm'; [done|]. intros ->. apply Hk.
      apply list_elem_of_fmap. by exists (k, x'). }
    simpl. unfold diffLeft at 1. destruct (mb !! k) as [y|] eqn:Hy.
    + rewrite apply_app, (apply_under _ _ _ x), Hx by done. simpl.
      destruct (IH Hnd (<[k:=y]> m0)) as (m1 & -> & Hm1).
      { apply Hl'. intros j Hj. by rewrite lookup_insert_ne. }
      exists m1. split; [done|]. intros j. rewrite Hm1.
      destruct (decide (j = k)) as [->|Hj].
      * rewrite decide_False by done. rewrite decide_True by left.
        by rewrite lookup_insert_eq.
      * rewrite lookup_insert_ne by done. simpl.
        destruct (decide (j ∈ l.*1));
          [rewrite decide_True by by right
          |rewrite decide_False by by intros [?|?]%elem_of_cons]; done.
    + change (apply (VObj m0) (Removed [Key k] :: ?ops))
        with (apply (VObj (delete k m0)) ops).
      destruct (IH Hnd (delete k m0)) as (m1 & -> & Hm1).
      { apply Hl'. intros j Hj. by rewrite lookup_delete_ne. }
      exists m1. split; [done|]. intros j. rewrite Hm1.
      destruct (decide (j = k)) as [->|Hj].
      * rewrite decide_False by done. rewrite decide_True by left.
        by rewrite lookup_delete_eq.
      * rewrite lookup_delete_ne by done. simpl.
        destruct (decide (j ∈ l.*1));
          [rewrite decide_True by by right
          |rewrite decide_False by by intros [?|?]%elem_of_cons]; done.
Qed.

Lemma apply_diffRight ma (l : list (string * value)) m1 :
  NoDup l.*1 →
  ∃ m2,
    apply (VObj m1) (foldr (uncurry (diffRight ma)) [] l) = VObj m2
    ∧ ∀ j, m2 !! j =
        match ma !! j, (list_to_map l : gmap string value) !! j with
        | None, Some y => Some y
        | _, _ => m1 !! j
        end.
Proof.
  intros Hnd. revert m1. induction l as [|[k y] l IH]; intros m1.
  - exists m1. split; [done|]. intros j. simpl.
    rewrite lookup_empty. by destruct (ma !! j).
  - apply NoDup_cons in Hnd as [Hk Hnd]. simpl in Hk.
    apply (not_elem_of_list_to_map_1 (M := gmap string)) in Hk.
    simpl. unfold diffRight at 1. destruct (ma !! k) as [x|] eqn:Hx.
    + destruct (IH Hnd m1) as (m2 & -> & Hm2).
      exists m2. split; [done|]. intros j. rewrite Hm2.
      destruct (decide (j = k)) as [->|Hj].
      * by rewrite Hx.
      * by rewrite lookup_insert_ne.
    + change (apply (VObj m1) (Added [Key k] y :: ?ops))
        with (apply (VObj (<[k:=y]> m1)) ops).
      destruct (IH Hnd (<[k:=y]> m1)) as (m2 & -> & Hm2).
      exists m2. split; [done|]. intros j. rewrite Hm2.
      destruct (decide (j = k)) as [->|Hj].
      * by rewrite Hx, Hk, !lookup_insert_eq.
      * by rewrite !lookup_insert_ne.
Qed.

Lemma elem_of_map_to_list_keys m j :
  j ∈ (map_to_list m).*1 ↔ is_Some (m !! j).
Proof.
  rewrite list_elem_of_fmap. split.
  - intros ([k x] & -> & Hin). apply elem_of_map_to_list in Hin. eauto.
  - intros [x Hx]. exists (j, x). split; [done|].
    by apply elem_of_map_to_list.
Qed.

Lemma apply_diffFields ma mb :
  map_Forall (λ _ x, ∀ y, apply x (diff x y) = y) ma →
  (∀ x y, Forall rooted (diff x y)) →
  apply (VObj ma) (diffFields diff ma mb) = VObj mb.
Proof.
  intros Hma Hrooted. unfold diffFields.
  rewrite !map_fold_foldr, apply_app.
  destruct (apply_diffLeft mb (map_to_list ma) ma) as (m1 & -> & Hm1).
  { apply NoDup_fst_map_to_list. }
  { intros k x Hin%elem_of_map_to_list. split; [done|]. by eapply Hma. }
  { done. }
  destruct (apply_diffRight ma (map_to_list mb) m1) as (m2 & -> & Hm2).
  { apply NoDup_fst_map_to_list. }
  f_equal. apply map_eq. intros j.
  rewrite Hm2, Hm1, list_to_map_to_list.
  destruct (ma !! j) as [x|] eqn:Hx.
  - rewrite decide_True; [done|]. apply elem_of_map_to_list_keys. eauto.
  - rewrite decide_False.
    + by destruct (mb !! j).
    + rewrite elem_of_map_to_list_keys, Hx. by intros [? ?].
Qed.

Lemma diffFields_same m :
  map_Forall (λ _ x, diff x x = []) m → diffFields diff m m = [].
Proof.
  intros Hm. unfold diffFields. rewrite !map_fold_foldr.
  assert (∀ l : list (string * value),
            (∀ k x, (k, x) ∈ l → m !! k = Some x) →
            foldr (uncurry (diffLeft diff m)) [] l = []
            ∧ foldr (uncurry (diffRight m)) [] l = []) as Hl.
  { induction l as [|[k x] l IH]; intros Hin; [done|].
    destruct IH as [IH1 IH2]; [intros; apply Hin; by right|].
    pose proof (Hin k x ltac:(left)) as Hk. simpl.
    unfold diffLeft at 1, diffRight at 1. rewrite Hk, IH1, IH2.
    by rewrite (Hm k x Hk). }
  destruct (Hl (map_to_list m)) as [-> ->]; [|done].
  intros k x. by rewrite elem_of_map_to_list.
Qed.

Lemma diffFields_rooted (d : value → value → list DeltaOp) ma mb :
  Forall rooted (diffFields d ma mb).
Proof.
  unfold diffFields. rewrite !map_fold_foldr. apply Forall_app. split.
  - induction (map_to_list ma) as [|[k x] l IH]; simpl; [done|].
    unfold diffLeft at 1. destruct (mb !! k).
    + apply Forall_app. split; [apply Forall_rooted_under | done].
    + by apply Forall_cons.
  - induction (map_to_list mb) as [|[k y] l IH]; simpl; [done|].
    unfold diffRight at 1. destruct (ma !! k); [done|].
    by apply Forall_cons.
Qed.

(** *** Trees *)

Lemma diff_rooted a b : Forall rooted (diff a b).
Proof.
  destruct a as [|x|x|x|xs|ma], b as [|y|y|y|ys|mb]; simpl;
    try case_bool_decide; try (by repeat constructor).
  - apply diffItems_rooted.
  - apply diffFields_rooted.
Qed.

Lemma apply_diff a b : apply a (diff a b) = b.
Proof.
  revert b. induction a as [|x|x|x|xs IH|ma IH] using value_ind';
    intros [|y|y|y|ys|mb]; try done;
    try (simpl; case_bool_decide; by subst).
  - rewrite diff_arr. apply (apply_diffItems [] xs ys IH), diff_rooted.
  - rewrite diff_obj. apply (apply_diffFields ma mb IH), diff_rooted.
Qed.

Lemma diff_same a : diff a a = [].
Proof.
  induction a as [|x|x|x|xs IH|ma IH] using value_ind';
    try done; try (simpl; by rewrite bool_decide_true).
  - rewrite diff_arr. by apply diffItems_same.
  - rewrite diff_obj. by apply diffFields_same.
Qed.

(** A delta is empty only between equal trees. *)
Lemma diff_nil a b : diff a b = [] → a = b.
Proof. intros Hd. by rewrite <- (apply_diff a b), Hd. Qed.
End DeltaFacts.

(** C4. For the delta engine of the spec and all trees [A] and [B]:
    replaying the delta from [A] to [B] on a deep copy of [A] gives [B], and
    the delta from [A] to [A] is empty. So when a visit leaves the working
    copy of a node equal to the node, the engine leaves the document and the
    recorded changes as they were, even in a run that may mutate; if the
    visit reported no error, it logs a plain pass. *)
Theorem delta_roundtrip (A B : value) :
  Delta.apply (cloneDeep A) (Delta.diff A B) = B
  ∧ Delta.diff A A = []
  ∧ ∀ rule ctx data ref,
      get ref data = Some A →
      (visit rule ctx (cloneDeep A)).2 = A →
      let step := @visitItem structural rule ctx data ref in
      step.2 = data
      ∧ VisitorContext.changes step.1 = VisitorContext.changes ctx
      ∧ (VisitorResult.errors (visit rule ctx (cloneDeep A)).1.2 = [] →
         step = (VisitorContext.info [("rule", LName (SchemaRule.name rule))]
                   "rule passed" (visit rule ctx (cloneDeep A)).1.1,
                 data)).
Proof.
  split_and!.
  - apply apply_diff.
  - apply diff_same.
  - intros rule ctx data ref Hg Hw step.
    assert (@diff structural A (visit rule ctx (cloneDeep A)).2 = []) as Hd
      by (rewrite Hw; apply diff_same).
    assert (VisitorResult.errors (visit rule ctx (cloneDeep A)).1.2 = [] →
            step = (VisitorContext.info
                      [("rule", LName (SchemaRule.name rule))]
                      "rule passed" (visit rule ctx (cloneDeep A)).1.1,
                    data)) as Hclean
      by (intros He; by apply (@visitItem_passed_clean structural)).
    destruct (@visitItem_guarded structural rule ref ctx data)
      as (_ & Hch & _ & _).
    split_and!; [|done|done].
    destruct (VisitorResult.errors (visit rule ctx (cloneDeep A)).1.2)
      as [|e es] eqn:He.
    + by rewrite Hclean.
    + subst step.
      rewrite (@visitItem_failed structural rule ctx data ref A Hg); [done|].
      by rewrite He.
Qed.

Lemma delta_roundtrip_witness :
  let ctx := freshContext true in
  let ref := [Key "servers"; Idx 1] in
  let step := @visitItem structural portRequired ctx inventory ref in
  step.2 = inventory
  ∧ VisitorContext.changes step.1 = []
  ∧ (logMsg <$> last (VisitorContext.logger step.1)) = Some "rule passed".
Proof.
  intros ctx ref step.
  destruct (proj2 (proj2 (delta_roundtrip serverB serverA))
              portRequired ctx inventory ref)
    as (Hdoc & Hch & Hlog); [reflexivity | reflexivity |].
  split_and!; [exact Hdoc | exact Hch |].
  subst step. by rewrite Hlog.
Defined.

(** * More of the code *)

(** ** More on rule selection *)

Section SelectionFacts.
Implicit Types (r : SchemaRule.t) (selector : RuleSelector)
  (s : RuleSet) (rules : list SchemaRule.t).

Lemma selected_true selector r :
  selected selector r = true ↔ ¬ excluded selector r ∧ included selector r.
Proof.
  unfold selected, excluded, included.
  rewrite !andb_true_iff, !orb_true_iff, !negb_true_iff.
  rewrite <- !not_true_iff_false, !includes_true, !intersection_has_items.
  tauto.
Qed.

Lemma has_true s r :
  has s r = true ↔ SchemaRule.oid r ∈ SchemaRule.oid <$> s.
Proof. unfold has. by rewrite bool_decide_eq_true. Qed.

Lemma add_present s r : has s r = true → add s r = s.
Proof. unfold add. by intros ->. Qed.

Lemma add_absent s r : has s r = false → add s r = s ++ [r].
Proof. unfold add. by intros ->. Qed.

Lemma has_add s r : has (add s r) r = true.
Proof.
  destruct (has s r) eqn:Hs; [by rewrite add_present|].
  rewrite add_absent by done. apply has_true.
  rewrite fmap_app. apply elem_of_app. right. left.
Qed.

Lemma add_add s r : add (add s r) r = add s r.
Proof. apply add_present, has_add. Qed.

(** One turn of the loop, in one test. *)
Lemma resolveRule_selected selector s r :
  resolveRule selector s r = if selected selector r then add s r else s.
Proof.
  unfold resolveRule, selected.
  destruct (includes (excludeLevel selector) _); [done|].
  destruct (includes (excludeName selector) _); [done|].
  destruct (0 <? length (intersection (excludeTag selector) _)); [done|].
  destruct (includes (includeLevel selector) _),
    (includes (includeName selector) _),
    (0 <? length (intersection (includeTag selector) _));
    simpl; by rewrite ?add_add.
Qed.

Lemma resolveRules_snoc rules selector r :
  resolveRules (rules ++ [r]) selector
  = if selected selector r then add (resolveRules rules selector) r
    else resolveRules rules selector.
Proof.
  unfold resolveRules. rewrite foldl_app. simpl. apply resolveRule_selected.
Qed.

(** What is selected comes from the catalog. *)
Lemma resolveRules_sublist rules selector :
  resolveRules rules selector `sublist_of` rules.
Proof.
  induction rules as [|r rules IH] using rev_ind; [done|].
  rewrite resolveRules_snoc.
  destruct (selected selector r).
  - unfold add. destruct (has _ r).
    + by apply sublist_inserts_r.
    + by apply sublist_app.
  - by apply sublist_inserts_r.
Qed.

Lemma resolveRules_NoDup rules selector :
  NoDup (SchemaRule.oid <$> resolveRules rules selector).
Proof.
  induction rules as [|r rules IH] using rev_ind; [constructor|].
  rewrite resolveRules_snoc.
  destruct (selected selector r); [|done].
  destruct (has (resolveRules rules selector) r) eqn:Hs.
  - by rewrite add_present.
  - rewrite add_absent by done. rewrite fmap_app. simpl.
    apply NoDup_app. split_and!; [done | | apply NoDup_singleton].
    intros o Ho ->%list_elem_of_singleton.
    apply has_true in Ho. congruence.
Qed.

(** Every selected rule of the catalog is among the active rules, by its
    identity. *)
Lemma resolveRules_complete rules selector r :
  r ∈ rules → selected selector r = true →
  SchemaRule.oid r ∈ SchemaRule.oid <$> resolveRules rules selector.
Proof.
  induction rules as [|r' rules IH] using rev_ind; intros Hin Hsel.
  - by apply elem_of_nil in Hin.
  - rewrite resolveRules_snoc.
    apply elem_of_app in Hin as [Hin | ->%list_elem_of_singleton].
    + specialize (IH Hin Hsel).
      destruct (selected selector r'); [|done].
      unfold add. destruct (has _ r'); [done|].
      rewrite fmap_app. apply elem_of_app. by left.
    + rewrite Hsel. apply has_true, has_add.
Qed.

Lemma resolveRules_fresh rules selector :
  NoDup (SchemaRule.oid <$> rules) →
  resolveRules rules selector = filter (λ r, selected selector r = true) rules.
Proof.
  induction rules as [|r rules IH] using rev_ind; intros Hnd; [done|].
  rewrite fmap_app in Hnd. apply NoDup_app in Hnd as (Hnd & Hr & _).
  rewrite resolveRules_snoc, filter_app, IH by done.
  rewrite filter_cons, filter_nil.
  destruct (selected selector r) eqn:Hsel.
  - rewrite decide_True by done. apply add_absent.
    apply not_true_iff_false. rewrite has_true. intros Ho.
    apply list_elem_of_fmap in Ho as (r' & Heq & Hin).
    apply list_elem_of_filter in Hin as [_ Hin].
    apply (Hr (SchemaRule.oid r)).
    + rewrite Heq. by apply list_elem_of_fmap_2.
    + left.
  - rewrite decide_False by done. by rewrite app_nil_r.
Qed.

Lemma filter_all {A} (P : A → Prop) `{∀ x, Decision (P x)} (l : list A) :
  Forall P l → filter P l = l.
Proof.
  induction 1 as [|x l Hx _ IH]; [done|].
  by rewrite filter_cons_True, IH.
Qed.

(** A second pass over rules whose selected ones are already in changes
    nothing. *)
Lemma foldl_resolveRule_present selector s rules :
  (∀ r, r ∈ rules → selected selector r = true →
        SchemaRule.oid r ∈ SchemaRule.oid <$> s) →
  foldl (resolveRule selector) s rules = s.
Proof.
  induction rules as [|r rules IH]; intros Hin; [done|].
  simpl. rewrite resolveRule_selected.
  destruct (selected selector r) eqn:Hsel.
  - rewrite add_present; [apply IH; intros; apply Hin; [by right | done]|].
    apply has_true, Hin; [left | done].
  - apply IH. intros. apply Hin; [by right | done].
Qed.

End SelectionFacts.

(** ** Loading rules *)

Section LoadFacts.
Implicit Types (src : Sources) (st : LoadState) (rules : list SchemaRule.t)
  (docs : list RuleSource.t) (paths : list string).

Lemma newRules_app first (es1 es2 : list RuleData.t) :
  newRules first (es1 ++ es2)
  = newRules first es1 ++ newRules (first + length es1) es2.
Proof.
  unfold newRules. rewrite imap_app. f_equal.
  apply imap_ext. intros i it _. simpl. f_equal. lia.
Qed.

Lemma newRules_oids first (es : list RuleData.t) :
  SchemaRule.oid <$> newRules first es = seq first (length es).
Proof.
  revert first. induction es as [|e es IH]; intros first; [done|].
  change (e :: es) with ([e] ++ es). rewrite newRules_app, fmap_app, IH.
  simpl. by rewrite Nat.add_0_r, Nat.add_1_r.
Qed.

Lemma length_newRules first (es : list RuleData.t) :
  length (newRules first es) = length es.
Proof. unfold newRules. apply length_imap. Qed.

Lemma registrations_app docs1 docs2 :
  registrations (docs1 ++ docs2) = registrations docs1 ++ registrations docs2.
Proof. unfold registrations. apply omap_app. Qed.

(** The inner loop, document by document. *)
Lemma loadSource_fold docs st rules :
  foldl (λ acc data, loadSource acc.1 acc.2 data) (st, rules) docs
  = ({| nextOid := nextOid st + length (docs ≫= RuleSource.rules);
        addedSchemas := addedSchemas st ++ registrations docs |},
     rules ++ newRules (nextOid st) (docs ≫= RuleSource.rules)).
Proof.
  revert st rules. induction docs as [|data docs IH]; intros st rules.
  - simpl. rewrite Nat.add_0_r, !app_nil_r. by destruct st.
  - change (foldl ?f (st, rules) (data :: docs))
      with (foldl f (loadSource st rules data) docs).
    destruct (loadSource st rules data) as [st' rules'] eqn:E.
    rewrite IH. unfold loadSource in E. injection E as <- <-. simpl.
    rewrite newRules_app, length_app.
    unfold registrations. simpl.
    destruct (RuleSource.definitions data) as [d|]; simpl;
      rewrite <- ?app_assoc, Nat.add_assoc; done.
Qed.

Lemma loadPaths_documents src paths docs st rules :
  documentsOf src paths = Some docs →
  loadPaths src paths st rules
  = ({| nextOid := nextOid st + length (docs ≫= RuleSource.rules);
        addedSchemas := addedSchemas st ++ registrations docs |},
     Some (rules ++ newRules (nextOid st) (docs ≫= RuleSource.rules))).
Proof.
  revert docs st rules.
  induction paths as [|path paths IH]; intros docs st rules Hdocs.
  - injection Hdocs as <-. simpl.
    rewrite Nat.add_0_r, !app_nil_r. by destruct st.
  - simpl in *.
    destruct (readFile src path) as [contents|]; [|done]. simpl in *.
    destruct (parse src contents) as [ds|]; [|done]. simpl in *.
    destruct (documentsOf src paths) as [more|]; [|done]. simpl in *.
    injection Hdocs as <-.
    rewrite loadSource_fold. simpl. rewrite (IH more) by done. simpl.
    rewrite bind_app, newRules_app, length_app, registrations_app.
    by rewrite <- !app_assoc, Nat.add_assoc.
Qed.

Lemma loadPaths_failed src paths st rules :
  documentsOf src paths = None → (loadPaths src paths st rules).2 = None.
Proof.
  revert st rules. induction paths as [|path paths IH]; intros st rules Hdocs.
  - done.
  - simpl in *.
    destruct (readFile src path) as [contents|]; [|done]. simpl in *.
    destruct (parse src contents) as [ds|]; [|done]. simpl in *.
    destruct (documentsOf src paths) as [more|]; [done|].
    by apply IH.
Qed.

Lemma documentsOf_None src paths :
  documentsOf src paths = None
  ↔ ∃ path, path ∈ paths ∧ readFile src path ≫= parse src = None.
Proof.
  induction paths as [|path paths IH]; simpl.
  - split; [done|]. intros (p & Hp & _). by apply elem_of_nil in Hp.
  - destruct (readFile src path ≫= parse src) as [ds|] eqn:Hd; simpl.
    + destruct (documentsOf src paths) as [more|]; simpl.
      * split; [done|]. intros (p & [-> | Hp]%elem_of_cons & Hnone).
        -- congruence.
        -- assert (Some more = None) as [=].
           apply IH. eauto.
      * split; [|done]. intros _.
        destruct (proj1 IH eq_refl) as (p & Hp & Hnone).
        exists p. split; [by right | done].
    + split; [|done]. intros _. exists path. split; [left | done].
Qed.

(** The accumulated rules ride along. *)
Lemma loadPaths_acc src paths st rules :
  loadPaths src paths st rules
  = ((loadPaths src paths st []).1,
     (rules ++.) <$> (loadPaths src paths st []).2).
Proof.
  destruct (documentsOf src paths) as [docs|] eqn:Hdocs.
  - by rewrite !(loadPaths_documents _ _ _ _ _ Hdocs).
  - revert st rules.
    induction paths as [|path paths IH]; intros st rules; [done|].
    simpl in *.
    destruct (readFile src path) as [contents|]; [|done]. simpl in *.
    destruct (parse src contents) as [ds|]; [|done]. simpl in *.
    destruct (documentsOf src paths) as [more|]; [done|].
    rewrite !loadSource_fold. simpl.
    rewrite (IH eq_refl _ (rules ++ _)), (IH eq_refl _ (newRules _ _)).
    simpl. destruct (loadPaths src paths _ []).2; simpl; [|done].
    by rewrite app_assoc.
Qed.

End LoadFacts.

(** ** More on the engine *)

Section GrowthFacts.
Context `{DeltaEngine}.
Implicit Types (rule : SchemaRule.t) (ctx c : VisitorContext.t)
  (data item node : value) (ref : path).

Lemma grown_refl c : grown c c.
Proof. by split_and!. Qed.

Lemma grown_trans c1 c2 c3 : grown c1 c2 → grown c2 c3 → grown c1 c3.
Proof.
  intros (He1 & Hc1 & Hl1 & Hr1) (He2 & Hc2 & Hl2 & Hr2). split_and!.
  - by eapply same_env_trans.
  - congruence.
  - by etrans.
  - by etrans.
Qed.

Lemma grown_log lvl fields msg c : grown c (VisitorContext.log lvl fields msg c).
Proof. split_and!; try done. simpl. by apply prefix_app_r. Qed.

Lemma grown_mergeResult c other :
  VisitorResult.changes other = [] →
  grown c (VisitorContext.mergeResult c other).
Proof.
  intros Hch. split_and!; try done; simpl.
  - by rewrite Hch, app_nil_r.
  - by apply prefix_app_r.
Qed.

Lemma visit_grown rule ctx node : grown ctx (visit rule ctx node).1.1.
Proof.
  destruct (valid (compileFilter rule ctx node)) eqn:Hf.
  - rewrite (visit_checked _ _ _ Hf). simpl.
    eapply grown_trans; apply grown_log.
  - rewrite (visit_skipped _ _ _ Hf). simpl.
    eapply grown_trans; apply grown_log.
Qed.

Lemma visitItem_grown rule ctx data ref :
  grown ctx (visitItem rule ctx data ref).1.
Proof.
  destruct (visitItem_cases rule ctx data ref)
    as [Hg | (item & Hg & [He | (He & [Hd | Hd])])].
  - rewrite (visitItem_detached _ _ _ _ Hg). apply grown_refl.
  - rewrite (visitItem_failed _ _ _ _ _ Hg He). simpl.
    eapply grown_trans; [apply visit_grown|].
    eapply grown_trans; [apply grown_log|].
    apply grown_mergeResult, visit_changes.
  - rewrite (visitItem_passed_clean _ _ _ _ _ Hg He Hd). simpl.
    eapply grown_trans; [apply visit_grown | apply grown_log].
  - rewrite (visitItem_passed_modified _ _ _ _ _ Hg He Hd). simpl.
    eapply grown_trans; [apply visit_grown | apply grown_log].
Qed.

Lemma grown_foldl {A}
    (f : VisitorContext.t → value → A → VisitorContext.t * value)
    (xs : list A) ctx data :
  (∀ c d x, grown c (f c d x).1) →
  grown ctx (foldl (λ st x, f st.1 st.2 x) (ctx, data) xs).1.
Proof.
  intros Hf. induction xs as [|x xs IH] using rev_ind; [apply grown_refl|].
  rewrite foldl_app. simpl. eapply grown_trans; [exact IH | apply Hf].
Qed.

Lemma visitRule_grown rule ctx data : grown ctx (visitRule ctx data rule).1.
Proof.
  rewrite visitRule_eq.
  apply (grown_trans _ (pick rule ctx data).1).
  - unfold pick.
    destruct (bool_decide
                (length (VisitorContext.pick ctx (SchemaRule.select rule) data)
                 = 0)); simpl; [apply grown_log | apply grown_refl].
  - apply (grown_foldl (λ c d ref, visitItem rule c d ref)).
    intros. apply visitItem_grown.
Qed.

Lemma visitRules_grown rules ctx data :
  grown ctx (visitRules ctx rules data).1.
Proof.
  apply (grown_foldl visitRule). intros. apply visitRule_grown.
Qed.

(** What one step adds to the report. *)
Lemma visitItem_errors rule ctx data ref :
  VisitorContext.errors (visitItem rule ctx data ref).1
  = VisitorContext.errors ctx ++ nodeErrors rule ctx data ref.
Proof.
  unfold nodeErrors.
  destruct (visitItem_cases rule ctx data ref)
    as [Hg | (item & Hg & [He | (He & [Hd | Hd])])]; rewrite Hg.
  - rewrite (visitItem_detached _ _ _ _ Hg). by rewrite app_nil_r.
  - rewrite (visitItem_failed _ _ _ _ _ Hg He). simpl.
    by destruct (visit_context rule ctx (cloneDeep item)) as (_ & _ & ->).
  - rewrite (visitItem_passed_clean _ _ _ _ _ Hg He Hd). simpl.
    destruct (visit_context rule ctx (cloneDeep item)) as (_ & _ & ->).
    by rewrite He, app_nil_r.
  - rewrite (visitItem_passed_modified _ _ _ _ _ Hg He Hd). simpl.
    destruct (visit_context rule ctx (cloneDeep item)) as (_ & _ & ->).
    by rewrite He, app_nil_r.
Qed.

Lemma nodeErrors_env rule c1 c2 data ref :
  same_env c1 c2 → nodeErrors rule c1 data ref = nodeErrors rule c2 data ref.
Proof.
  intros Henv. unfold nodeErrors. destruct (get ref data); [|done].
  by destruct (visit_uniform rule c1 c2 (cloneDeep v) Henv) as [-> _].
Qed.

Lemma ruleErrors_env c1 c2 data rule :
  same_env c1 c2 → ruleErrors c1 data rule = ruleErrors c2 data rule.
Proof.
  intros Henv. unfold ruleErrors.
  destruct Henv as (Ho & Hp & Hc). rewrite Hp.
  induction (VisitorContext.pick c2 _ data) as [|ref refs IH]; [done|].
  rewrite !bind_cons, IH. f_equal. by apply nodeErrors_env.
Qed.

Lemma visitItems_dry rule ctx c data items :
  VisitorContext.mutate (VisitorContext.innerOptions ctx) = false →
  same_env ctx c →
  VisitorContext.errors (visitItems rule c data items).1
  = VisitorContext.errors c ++ (items ≫= nodeErrors rule ctx data)
  ∧ (visitItems rule c data items).2 = data.
Proof.
  intros Hmut. revert c. unfold visitItems.
  induction items as [|ref items IH]; intros c Henv.
  - simpl. by rewrite app_nil_r.
  - simpl.
    destruct (visitItem_guarded rule ref c data) as (Henv' & _ & _ & Hd).
    rewrite (surjective_pairing (visitItem rule c data ref)).
    rewrite Hd by (by destruct Henv as (<- & _)).
    destruct (IH (visitItem rule c data ref).1) as (-> & ->);
      [by eapply same_env_trans|].
    split; [|done].
    rewrite visitItem_errors, <- app_assoc.
    by rewrite (nodeErrors_env rule c ctx) by by apply same_env_sym.
Qed.

Lemma visitRules_dry ctx c rules data :
  VisitorContext.mutate (VisitorContext.innerOptions ctx) = false →
  same_env ctx c →
  VisitorContext.errors (visitRules c rules data).1
  = VisitorContext.errors c ++ (rules ≫= ruleErrors ctx data)
  ∧ (visitRules c rules data).2 = data.
Proof.
  intros Hmut. revert c. unfold visitRules.
  induction rules as [|rule rules IH]; intros c Henv.
  - simpl. by rewrite app_nil_r.
  - simpl. rewrite (surjective_pairing (visitRule c data rule)).
    destruct (pick_context rule c data) as (Henv' & _ & Her & _).
    assert (same_env ctx (pick rule c data).1) as Hp
      by by eapply same_env_trans.
    pose proof (visitItems_dry rule ctx (pick rule c data).1 data
                  (VisitorContext.pick c (SchemaRule.select rule) data)
                  Hmut Hp) as (He & Hd).
    rewrite <- visitRule_eq in He, Hd. rewrite Hd.
    destruct (visitRule_guarded rule c data) as (Hv & _).
    destruct (IH (visitRule c data rule).1) as (-> & ->);
      [exact (same_env_trans _ _ _ Henv Hv)|].
    split; [|done].
    rewrite He, Her, <- app_assoc. do 2 f_equal.
    unfold ruleErrors. by destruct Henv as (_ & -> & _).
Qed.

End GrowthFacts.


(** ** Properties of rule selection *)

Lemma identified_NoDup (rules : list SchemaRule.t) :
  NoDup (SchemaRule.oid <$> rules) → identified rules.
Proof.
  intros Hnd r1 r2 Hr1 Hr2 Heq.
  apply list_elem_of_lookup in Hr1 as (i & Hi).
  apply list_elem_of_lookup in Hr2 as (j & Hj).
  assert (i = j) as ->; [|congruence].
  eapply NoDup_lookup; [exact Hnd | |];
    rewrite list_lookup_fmap; [by rewrite Hi | by rewrite Hj, Heq].
Qed.

(** X1. In a catalog where an identity denotes one object, the active rules
    are exactly the rules of the catalog that match no exclude test and some
    include test. *)
Theorem resolveRules_membership (rules : list SchemaRule.t)
    (selector : RuleSelector) (r : SchemaRule.t) :
  identified rules →
  r ∈ resolveRules rules selector
  ↔ r ∈ rules ∧ ¬ excluded selector r ∧ included selector r.
Proof.
  intros Hid. split.
  - intros Hin. split; [|by eapply elem_of_resolveRules].
    eapply elem_of_sublist; [done | apply resolveRules_sublist].
  - intros (Hin & Hsel). apply selected_true in Hsel.
    pose proof (resolveRules_complete _ _ _ Hin Hsel) as Ho.
    apply list_elem_of_fmap in Ho as (r' & Heq & Hin').
    assert (r' ∈ rules) as Hr'
      by (eapply elem_of_sublist; [done | apply resolveRules_sublist]).
    by rewrite (Hid r r' Hin Hr' Heq).
Qed.

Lemma resolveRules_membership_witness :
  portRequired ∈ resolveRules catalog netOnly
  ∧ tagDefault ∉ resolveRules catalog netOnly.
Proof.
  assert (identified catalog) as Hid
    by (apply identified_NoDup; vm_compute; by compute_done).
  split.
  - apply (resolveRules_membership catalog netOnly portRequired Hid).
    split_and!.
    + left.
    + intros [Hx | [Hx | (t & Hx & _)]]; simpl in Hx.
      * by apply elem_of_nil in Hx.
      * by apply list_elem_of_singleton in Hx.
      * by apply elem_of_nil in Hx.
    + right. right. exists "net". split; left.
  - intros Hin.
    apply (resolveRules_membership catalog netOnly tagDefault Hid) in Hin
      as (_ & Hex & _).
    apply Hex. right. left. left.
Defined.

(** X2. Whatever the catalog and the selector, no two active rules are the
    same object, and the active rules come in the order of the catalog. *)
Theorem resolveRules_ordered_set (rules : list SchemaRule.t)
    (selector : RuleSelector) :
  NoDup (SchemaRule.oid <$> resolveRules rules selector)
  ∧ resolveRules rules selector `sublist_of` rules.
Proof. split; [apply resolveRules_NoDup | apply resolveRules_sublist]. Qed.

(** X3. On a catalog of distinct objects, [resolveRules] is a filter: it
    keeps, in catalog order, the rules that pass the tests of one turn of
    its loop. *)
Theorem resolveRules_distinct_catalog (rules : list SchemaRule.t)
    (selector : RuleSelector) :
  NoDup (SchemaRule.oid <$> rules) →
  resolveRules rules selector = filter (λ r, selected selector r = true) rules.
Proof. apply resolveRules_fresh. Qed.

Lemma resolveRules_distinct_catalog_witness :
  resolveRules catalog netOnly = [portRequired]
  ∧ resolveRules catalog netAndWarnings = [portRequired; tagDefault; tagRequired].
Proof.
  assert (NoDup (SchemaRule.oid <$> catalog)) as Hnd
    by (vm_compute; by compute_done).
  split.
  - rewrite (resolveRules_distinct_catalog catalog netOnly Hnd). reflexivity.
  - rewrite (resolveRules_distinct_catalog catalog netAndWarnings Hnd).
    reflexivity.
Defined.

(** X4. Selecting again from the active rules selects all of them, and a
    catalog that lists its rule objects twice selects what listing them once
    selects. *)
Theorem resolveRules_idempotent (rules : list SchemaRule.t)
    (selector : RuleSelector) :
  resolveRules (resolveRules rules selector) selector
  = resolveRules rules selector
  ∧ resolveRules (rules ++ rules) selector = resolveRules rules selector.
Proof.
  split.
  - rewrite (resolveRules_fresh (resolveRules rules selector))
      by (apply resolveRules_NoDup).
    apply filter_all, Forall_forall. intros r Hin.
    apply selected_true. by eapply elem_of_resolveRules.
  - unfold resolveRules. rewrite foldl_app.
    apply foldl_resolveRule_present. intros r. apply resolveRules_complete.
Qed.

(** X5. A selector that includes at least as much and excludes at most as
    much selects every rule object the narrower selector selects. *)
Theorem resolveRules_monotone (rules : list SchemaRule.t)
    (narrow wide : RuleSelector) (r : SchemaRule.t) :
  includeLevel narrow ⊆ includeLevel wide →
  includeName narrow ⊆ includeName wide →
  includeTag narrow ⊆ includeTag wide →
  excludeLevel wide ⊆ excludeLevel narrow →
  excludeName wide ⊆ excludeName narrow →
  excludeTag wide ⊆ excludeTag narrow →
  r ∈ resolveRules rules narrow →
  SchemaRule.oid r ∈ SchemaRule.oid <$> resolveRules rules wide.
Proof.
  intros Hil Hin Hit Hel Hen Het Hr.
  assert (r ∈ rules) as Hcat
    by (eapply elem_of_sublist; [done | apply resolveRules_sublist]).
  apply elem_of_resolveRules in Hr as [Hex Hinc].
  apply resolveRules_complete; [done|]. apply selected_true. split.
  - intros [? | [? | (t & ? & ?)]]; apply Hex; unfold excluded; eauto 6.
  - destruct Hinc as [? | [? | (t & ? & ?)]]; unfold included; eauto 6.
Qed.

Lemma resolveRules_monotone_witness :
  SchemaRule.oid portRequired
    ∈ SchemaRule.oid <$> resolveRules catalog netAndWarnings.
Proof.
  apply (resolveRules_monotone catalog netOnly netAndWarnings portRequired);
    simpl; try (by intros x Hx; try (by apply elem_of_nil in Hx)).
  vm_compute. left.
Defined.

(** X6. A selector made from options that give no include criterion selects
    nothing, whatever the exclude criteria are. *)
Theorem createRuleSelector_needs_include (rules : list SchemaRule.t)
    (options : RuleSelectorOptions) :
  optIncludeLevel options = None →
  optIncludeName options = None →
  optIncludeTag options = None →
  resolveRules rules (createRuleSelector options) = [].
Proof.
  intros Hl Hn Ht.
  destruct (resolveRules rules _) as [|r l] eqn:E; [done|].
  assert (r ∈ resolveRules rules (createRuleSelector options)) as Hin
    by (rewrite E; left).
  apply elem_of_resolveRules in Hin as [_ Hinc].
  unfold included, createRuleSelector in Hinc. simpl in Hinc.
  rewrite Hl, Hn, Ht in Hinc. simpl in Hinc.
  destruct Hinc as [Hx | [Hx | (t & Hx & _)]]; by apply elem_of_nil in Hx.
Qed.

Lemma createRuleSelector_needs_include_witness :
  resolveRules catalog (createRuleSelector excludeOnly) = [].
Proof.
  apply (createRuleSelector_needs_include catalog excludeOnly); reflexivity.
Defined.

(** ** Properties of loading *)

Lemma loadPaths_app (src : Sources) (paths1 paths2 : list string)
    (st : LoadState) (rules : list SchemaRule.t) :
  loadPaths src (paths1 ++ paths2) st rules
  = match (loadPaths src paths1 st rules).2 with
    | Some rules1 => loadPaths src paths2 (loadPaths src paths1 st rules).1 rules1
    | None => ((loadPaths src paths1 st rules).1, None)
    end.
Proof.
  revert st rules. induction paths1 as [|path paths1 IH]; intros st rules.
  - done.
  - simpl.
    destruct (readFile src path) as [contents|]; [|done].
    destruct (parse src contents) as [ds|]; [|done].
    apply IH.
Qed.

(** X7. When every file can be read and parsed, [loadRules] returns one new
    rule object per entry, in the order of the files, of the documents in a
    file and of the entries in a document, with identities that count up
    from the first free one; and it hands to the context the definitions of
    the documents that have some, in the same order. *)
Theorem loadRules_success (src : Sources) (paths : list string)
    (st : LoadState) (docs : list RuleSource.t) :
  documentsOf src paths = Some docs →
  loadRules src paths st
  = ({| nextOid := nextOid st + length (docs ≫= RuleSource.rules);
        addedSchemas := addedSchemas st ++ registrations docs |},
     Some (newRules (nextOid st) (docs ≫= RuleSource.rules))).
Proof.
  intros Hdocs. unfold loadRules.
  by rewrite (loadPaths_documents _ _ _ _ _ Hdocs).
Qed.

Lemma loadRules_success_witness :
  loadRules ruleFiles ["tags.yml"; "net.yml"] startState
  = ({| nextOid := 13;
        addedSchemas := [("empty", ∅); ("net", {["port" := VObj ∅]})] |},
     Some [SchemaRule.new 10 tagDefaultData; SchemaRule.new 11 guardedData;
           SchemaRule.new 12 portRequiredData]).
Proof.
  rewrite (loadRules_success ruleFiles ["tags.yml"; "net.yml"] startState
             [tagSource; emptySource; netSource]); reflexivity.
Defined.

(** X8. When some file of the list cannot be read or parsed, [loadRules]
    returns no rules, wherever that file is in the list and whatever the
    other files hold. *)
Theorem loadRules_aborts (src : Sources) (paths : list string)
    (st : LoadState) :
  (∃ path, path ∈ paths ∧ readFile src path ≫= parse src = None) →
  (loadRules src paths st).2 = None.
Proof.
  rewrite <- documentsOf_None. unfold loadRules. apply loadPaths_failed.
Qed.

Lemma loadRules_aborts_witness :
  (loadRules ruleFiles ["net.yml"; "bad.yml"; "tags.yml"] startState).2 = None
  ∧ (loadRules ruleFiles ["net.yml"; "missing.yml"] startState).2 = None.
Proof.
  split.
  - apply (loadRules_aborts ruleFiles ["net.yml"; "bad.yml"; "tags.yml"]).
    exists "bad.yml". split; [right; left | reflexivity].
  - apply (loadRules_aborts ruleFiles ["net.yml"; "missing.yml"]).
    exists "missing.yml". split; [right; left | reflexivity].
Defined.

(** X9. Loading two lists of files one after the other is loading the first
    and then, from the state that leaves, the second: the rules of the
    second come after those of the first, and a first list that fails ends
    the load where it failed. *)
Theorem loadRules_app (src : Sources) (paths1 paths2 : list string)
    (st : LoadState) :
  loadRules src (paths1 ++ paths2) st
  = match (loadRules src paths1 st).2 with
    | Some rules1 =>
        ((loadRules src paths2 (loadRules src paths1 st).1).1,
         (rules1 ++.) <$> (loadRules src paths2 (loadRules src paths1 st).1).2)
    | None => ((loadRules src paths1 st).1, None)
    end.
Proof.
  unfold loadRules. rewrite loadPaths_app.
  destruct (loadPaths src paths1 st []).2 as [rules1|]; [|done].
  apply loadPaths_acc.
Qed.

(** X10. A load that fails at a file after files that could be read and
    parsed returns no rules, but the definitions of the documents of those
    earlier files have been handed to the context, and their rule objects
    have been created. *)
Theorem loadRules_partial (src : Sources) (good : list string) (bad : string)
    (rest : list string) (st : LoadState) (docs : list RuleSource.t) :
  documentsOf src good = Some docs →
  readFile src bad ≫= parse src = None →
  loadRules src (good ++ bad :: rest) st
  = ({| nextOid := nextOid st + length (docs ≫= RuleSource.rules);
        addedSchemas := addedSchemas st ++ registrations docs |},
     None).
Proof.
  intros Hdocs Hbad.
  unfold loadRules.
  rewrite loadPaths_app, (loadPaths_documents _ _ _ _ _ Hdocs). simpl.
  destruct (readFile src bad) as [contents|]; [|done]. simpl in Hbad.
  by rewrite Hbad.
Qed.

Lemma loadRules_partial_witness :
  loadRules ruleFiles ["net.yml"; "bad.yml"; "tags.yml"] startState
  = ({| nextOid := 11;
        addedSchemas := [("net", {["port" := VObj ∅]})] |},
     None).
Proof.
  apply (loadRules_partial ruleFiles ["net.yml"] "bad.yml" ["tags.yml"]
           startState [netSource]); reflexivity.
Defined.

(** X11. The rules of a load that succeeds are distinct objects, none of
    them older than the load; so selecting from them is filtering them. *)
Theorem loadRules_resolve (src : Sources) (paths : list string)
    (st : LoadState) (rules : list SchemaRule.t) (selector : RuleSelector) :
  (loadRules src paths st).2 = Some rules →
  NoDup (SchemaRule.oid <$> rules)
  ∧ (∀ r, r ∈ rules →
       nextOid st ≤ SchemaRule.oid r < nextOid (loadRules src paths st).1)
  ∧ resolveRules rules selector = filter (λ r, selected selector r = true) rules.
Proof.
  intros Hload.
  destruct (documentsOf src paths) as [docs|] eqn:Hdocs.
  - unfold loadRules in *.
    rewrite (loadPaths_documents _ _ _ _ _ Hdocs) in Hload |- *. simpl in *.
    injection Hload as <-.
    assert (NoDup (SchemaRule.oid <$>
                     newRules (nextOid st) (docs ≫= RuleSource.rules)))
      as Hnd by (rewrite newRules_oids; apply NoDup_seq).
    split_and!; [done | | by apply resolveRules_fresh].
    intros r Hr. apply (list_elem_of_fmap_2 SchemaRule.oid) in Hr.
    rewrite newRules_oids in Hr. apply elem_of_seq in Hr. lia.
  - apply (loadPaths_failed _ _ st []) in Hdocs.
    unfold loadRules in Hload. congruence.
Qed.

Lemma loadRules_resolve_witness :
  resolveRules [SchemaRule.new 10 tagDefaultData; SchemaRule.new 11 guardedData;
                SchemaRule.new 12 portRequiredData] netOnly
  = [SchemaRule.new 12 portRequiredData].
Proof.
  destruct (loadRules_resolve ruleFiles ["tags.yml"; "net.yml"] startState
              [SchemaRule.new 10 tagDefaultData; SchemaRule.new 11 guardedData;
               SchemaRule.new 12 portRequiredData] netOnly)
    as (_ & _ & ->); reflexivity.
Defined.

(** ** Properties of visiting *)

(** X12. Whatever the node, [visit] returns no change, and as many errors as
    the check exposes descriptors when the filter accepts the node and the
    check rejects it, and none otherwise; it leaves the node as the last
    predicate that ran left it; and it adds two lines to the log and nothing
    to the report. *)
Theorem visit_report (rule : SchemaRule.t) (ctx : VisitorContext.t)
    (node : value) :
  let filtered := compileFilter rule ctx node in
  let checked :=
    VisitorContext.compile ctx (SchemaRule.check rule) (vdata filtered) in
  let visited := visit rule ctx node in
  VisitorResult.changes visited.1.2 = []
  ∧ length (VisitorResult.errors visited.1.2)
    = (if valid filtered && negb (valid checked)
       then length (default [] (verrors checked)) else 0)
  ∧ visited.2 = (if valid filtered then vdata checked else vdata filtered)
  ∧ VisitorContext.errors visited.1.1 = VisitorContext.errors ctx
  ∧ VisitorContext.changes visited.1.1 = VisitorContext.changes ctx
  ∧ length (VisitorContext.logger visited.1.1)
    = length (VisitorContext.logger ctx) + 2.
Proof.
  intros filtered checked visited. subst visited.
  destruct (valid filtered) eqn:Hf.
  - rewrite (visit_checked _ _ _ Hf). simpl. fold filtered. fold checked.
    split_and!; try done.
    + unfold reported. destruct (valid checked); simpl; [done|].
      destruct (verrors checked) as [[|e es]|]; simpl; try done.
      by rewrite length_fmap.
    + rewrite !length_app. simpl. lia.
  - rewrite (visit_skipped _ _ _ Hf). simpl. fold filtered.
    split_and!; try done.
    rewrite !length_app. simpl. lia.
Qed.

(** X13. For a picked node that is in the document, the engine logs three
    lines: that it visits the node, whether it checks or skips it, and one
    outcome: the rule failed, passed, or passed with modifications,
    according to the errors of the visit and the delta of the node. *)
Theorem visitItem_log `{DeltaEngine} (rule : SchemaRule.t)
    (ctx : VisitorContext.t) (data : value) (ref : path) (item : value) :
  let visited := visit rule ctx (cloneDeep item) in
  let step := visitItem rule ctx data ref in
  get ref data = Some item →
  logMsg <$> VisitorContext.logger step.1
  = (logMsg <$> VisitorContext.logger ctx)
    ++ ["visiting node";
        if valid (compileFilter rule ctx (cloneDeep item))
        then "checking item" else "skipping item";
        match VisitorResult.errors visited.1.2 with
        | _ :: _ => "rule failed"
        | [] =>
            match diff item visited.2 with
            | [] => "rule passed"
            | _ :: _ => "rule passed with modifications"
            end
        end].
Proof.
  intros visited step Hg.
  assert (logMsg <$> VisitorContext.logger visited.1.1
          = (logMsg <$> VisitorContext.logger ctx)
            ++ ["visiting node";
                if valid (compileFilter rule ctx (cloneDeep item))
                then "checking item" else "skipping item"]) as Hv.
  { subst visited.
    destruct (valid (compileFilter rule ctx (cloneDeep item))) eqn:Hf.
    - rewrite (visit_checked _ _ _ Hf). simpl.
      by rewrite !fmap_app, <- app_assoc.
    - rewrite (visit_skipped _ _ _ Hf). simpl.
      by rewrite !fmap_app, <- app_assoc. }
  subst step.
  destruct (VisitorResult.errors visited.1.2) as [|e es] eqn:He.
  - destruct (diff item visited.2) as [|op ops] eqn:Hd.
    + rewrite (visitItem_passed_clean _ _ _ _ _ Hg He Hd). simpl.
      fold visited. by rewrite fmap_app, Hv, <- app_assoc.
    + rewrite (visitItem_passed_modified _ _ _ _ _ Hg He);
        [|fold visited; by rewrite Hd].
      simpl. fold visited. by rewrite fmap_app, Hv, <- app_assoc.
  - rewrite (visitItem_failed _ _ _ _ _ Hg); [|fold visited; by rewrite He].
    simpl. fold visited. by rewrite fmap_app, Hv, <- app_assoc.
Qed.

Lemma visitItem_log_witness :
  let ref := [Key "servers"; Idx 0] in
  logMsg <$> VisitorContext.logger
     (@visitItem structural tagRequired (freshContext true) inventory ref).1
  = ["visiting node"; "skipping item"; "rule passed"]
  ∧ logMsg <$> VisitorContext.logger
       (@visitItem structural portRequired (freshContext true) inventory ref).1
    = ["visiting node"; "checking item"; "rule failed"].
Proof.
  intros ref. split.
  - rewrite (@visitItem_log structural tagRequired (freshContext true)
               inventory ref serverA); reflexivity.
  - rewrite (@visitItem_log structural portRequired (freshContext true)
               inventory ref serverA); reflexivity.
Defined.

(** X14. A node that the filter rejects is not always left alone: when the
    filter predicate itself changed its copy of the node, the engine reports
    no error, logs a pass with modifications, and, in a run that may mutate,
    writes the filter's changes into the document. *)
Theorem visitItem_skipped_rewrite `{DeltaEngine} (rule : SchemaRule.t)
    (ctx : VisitorContext.t) (data : value) (ref : path) (item : value)
    (schema : value) :
  let filtered := VisitorContext.compile ctx schema (cloneDeep item) in
  let step := visitItem rule ctx data ref in
  get ref data = Some item →
  SchemaRule.filter rule = Some schema →
  valid filtered = false →
  diff item (vdata filtered) ≠ [] →
  VisitorContext.errors step.1 = VisitorContext.errors ctx
  ∧ (logMsg <$> last (VisitorContext.logger step.1))
    = Some "rule passed with modifications"
  ∧ step.2 = if VisitorContext.mutate (VisitorContext.innerOptions ctx)
             then put ref (applyDiff item (vdata filtered)) data
             else data.
Proof.
  intros filtered step Hg Hs Hf Hd.
  assert (compileFilter rule ctx = VisitorContext.compile ctx schema) as Hcf
    by (unfold compileFilter; by rewrite Hs).
  assert (valid (compileFilter rule ctx (cloneDeep item)) = false) as Hf'
    by by rewrite Hcf.
  pose proof (visit_skipped _ _ _ Hf') as Hv. rewrite Hcf in Hv.
  fold filtered in Hv.
  subst step.
  rewrite (visitItem_passed_modified _ _ _ _ _ Hg); rewrite Hv; simpl;
    try done.
  split_and!; try done. by rewrite last_snoc.
Qed.

Lemma visitItem_skipped_rewrite_witness :
  let ref := [Key "servers"; Idx 0] in
  let step := @visitItem structural fillingFilter (freshContext true)
                inventory ref in
  VisitorContext.errors step.1 = []
  ∧ get ref step.2 = Some serverATagged.
Proof.
  intros ref step.
  destruct (@visitItem_skipped_rewrite structural fillingFilter
              (freshContext true) inventory ref serverA
              (VObj (<["required" := VArr [VStr "port"]]>
                       {["default" := VObj {["tag" := VStr "default"]}]})))
    as (Herr & _ & Hdoc);
    [reflexivity | reflexivity | reflexivity | by vm_compute |].
  split; [exact Herr|].
  subst step. rewrite Hdoc. vm_compute. reflexivity.
Defined.

(** The node after a committed modification. *)
Lemma visitItem_committed `{DeltaEngine} (rule : SchemaRule.t)
    (ctx : VisitorContext.t) (data : value) (ref : path) (item : value) :
  VisitorContext.mutate (VisitorContext.innerOptions ctx) = true →
  get ref data = Some item →
  VisitorResult.errors (visit rule ctx (cloneDeep item)).1.2 = [] →
  diff item (visit rule ctx (cloneDeep item)).2 ≠ [] →
  applyDiff item (visit rule ctx (cloneDeep item)).2
  = (visit rule ctx (cloneDeep item)).2 →
  get ref (visitItem rule ctx data ref).2
  = Some (visit rule ctx (cloneDeep item)).2.
Proof.
  intros Hmut Hg He Hd Ha.
  rewrite (visitItem_passed_modified _ _ _ _ _ Hg He Hd). simpl.
  rewrite Hmut, Ha. apply get_put_eq. eauto.
Qed.

(** X15. In a run that may mutate, when a rule passes on a node with a
    non-empty delta and the delta engine turns the node into the working
    copy, reading the node's reference afterwards gives the working copy. *)
Theorem visitItem_commits `{DeltaEngine} (rule : SchemaRule.t)
    (ctx : VisitorContext.t) (data : value) (ref : path) (item : value) :
  let visited := visit rule ctx (cloneDeep item) in
  let step := visitItem rule ctx data ref in
  VisitorContext.mutate (VisitorContext.innerOptions ctx) = true →
  get ref data = Some item →
  VisitorResult.errors visited.1.2 = [] →
  diff item visited.2 ≠ [] →
  applyDiff item visited.2 = visited.2 →
  get ref step.2 = Some visited.2.
Proof.
  intros visited step Hmut Hg He Hd Ha. by apply visitItem_committed.
Qed.

Lemma visitItem_commits_witness :
  let ref := [Key "servers"; Idx 0] in
  get ref (@visitItem structural tagDefault (freshContext true) inventory ref).2
  = Some serverATagged.
Proof.
  intros ref.
  rewrite (@visitItem_commits structural tagDefault (freshContext true)
             inventory ref serverA);
    [ | reflexivity | reflexivity | reflexivity | by vm_compute
      | vm_compute; reflexivity ].
  vm_compute. reflexivity.
Defined.

(** X16. After such a commit, visiting the same node again with the same
    rule leaves the document as it is, provided the predicates leave the
    committed node as it is and the delta of a tree to itself is empty: the
    second visit is a failure when it reports errors, which go to the
    report, and a plain pass that reports nothing when it reports none; it
    is never a pass with modifications. *)
Theorem visitItem_settles `{DeltaEngine} (rule : SchemaRule.t)
    (ctx : VisitorContext.t) (data : value) (ref : path) (item : value) :
  let visited := visit rule ctx (cloneDeep item) in
  let step := visitItem rule ctx data ref in
  let revisited := visit rule ctx (cloneDeep visited.2) in
  let again := visitItem rule step.1 step.2 ref in
  VisitorContext.mutate (VisitorContext.innerOptions ctx) = true →
  get ref data = Some item →
  VisitorResult.errors visited.1.2 = [] →
  diff item visited.2 ≠ [] →
  applyDiff item visited.2 = visited.2 →
  diff visited.2 visited.2 = [] →
  revisited.2 = visited.2 →
  again.2 = step.2
  ∧ VisitorContext.errors again.1
    = VisitorContext.errors ctx ++ VisitorResult.errors revisited.1.2
  ∧ (logMsg <$> last (VisitorContext.logger again.1))
    = Some (match VisitorResult.errors revisited.1.2 with
            | [] => "rule passed"
            | _ :: _ => "rule failed"
            end).
Proof.
  intros visited step revisited again Hmut Hg He Hd Ha Hsame Hw2.
  assert (get ref step.2 = Some visited.2) as Hg2
    by by apply visitItem_committed.
  destruct (visitItem_guarded rule ref ctx data) as (Henv & _).
  fold step in Henv.
  destruct (visit_uniform rule ctx step.1 (cloneDeep visited.2) Henv)
    as (Hres & Hnode).
  fold revisited in Hres, Hnode.
  assert (VisitorContext.errors step.1 = VisitorContext.errors ctx) as Herr.
  { subst step. rewrite visitItem_errors. unfold nodeErrors.
    rewrite Hg. fold visited. by rewrite He, app_nil_r. }
  assert (VisitorContext.errors again.1
          = VisitorContext.errors ctx ++ VisitorResult.errors revisited.1.2)
    as Herr2.
  { subst again. rewrite visitItem_errors. unfold nodeErrors.
    by rewrite Hg2, <- Hres, Herr. }
  subst again.
  destruct (VisitorResult.errors revisited.1.2) as [|e es] eqn:He2.
  - rewrite (visitItem_passed_clean _ _ _ _ _ Hg2) in Herr2 |- *;
      [| by rewrite <- Hres | by rewrite <- Hnode, Hw2
       | by rewrite <- Hres | by rewrite <- Hnode, Hw2].
    simpl. split_and!; [done | exact Herr2 | by rewrite last_snoc].
  - rewrite (visitItem_failed _ _ _ _ _ Hg2) in Herr2 |- *;
      [| by rewrite <- Hres, He2 | by rewrite <- Hres, He2].
    simpl. split_and!; [done | exact Herr2 | by rewrite last_snoc].
Qed.

Lemma visitItem_settles_witness :
  let ref := [Key "servers"; Idx 0] in
  let step := @visitItem structural tagDefault (freshContext true)
                inventory ref in
  let again := @visitItem structural tagDefault step.1 step.2 ref in
  again.2 = step.2
  ∧ VisitorContext.errors again.1 = []
  ∧ (logMsg <$> last (VisitorContext.logger again.1)) = Some "rule passed".
Proof.
  intros ref step again.
  destruct (@visitItem_settles structural tagDefault (freshContext true)
              inventory ref serverA)
    as (Hdoc & Herr & Hlog);
    [ reflexivity | reflexivity | reflexivity | by vm_compute
    | vm_compute; reflexivity | vm_compute; reflexivity
    | vm_compute; reflexivity | ].
  split_and!; [exact Hdoc | exact Herr | exact Hlog].
Defined.

(** ** Properties of runs *)

(** X17. A run only adds to the context: the lines logged and the errors
    reported before the run come first after it, in the same order; the
    recorded changes, the options and the capabilities are the same. *)
Theorem visitRules_append_only `{DeltaEngine} (ctx : VisitorContext.t)
    (rules : list SchemaRule.t) (data : value) :
  grown ctx (visitRules ctx rules data).1.
Proof. apply visitRules_grown. Qed.

(** X18. In a run that may not mutate, the errors added to the report are
    those of each rule on each node it picks from the document as given,
    rule after rule in the order of the rules, node after node in the order
    picked: rules do not affect one another. *)
Theorem visitRules_dry_report `{DeltaEngine} (ctx : VisitorContext.t)
    (rules : list SchemaRule.t) (data : value) :
  VisitorContext.mutate (VisitorContext.innerOptions ctx) = false →
  VisitorContext.errors (visitRules ctx rules data).1
  = VisitorContext.errors ctx ++ (rules ≫= ruleErrors ctx data).
Proof. intros Hmut. by apply visitRules_dry. Qed.

Lemma visitRules_dry_report_witness :
  VisitorContext.errors
    (@visitRules structural (freshContext false)
       [tagRequired; portRequired; tagDefault] inventory).1
  = [{| errRule := tagRequired; errPath := "."; errMsg := "tag" |};
     {| errRule := portRequired; errPath := "."; errMsg := "port" |}].
Proof.
  rewrite (@visitRules_dry_report structural (freshContext false)
             [tagRequired; portRequired; tagDefault] inventory);
    [|reflexivity].
  vm_compute. reflexivity.
Defined.

(** X19. When no rule of a run selects a node, the run leaves the document
    and the report as they were and logs one line per rule, saying that no
    data was selected. *)
Theorem visitRules_nothing_selected `{DeltaEngine} (ctx : VisitorContext.t)
    (rules : list SchemaRule.t) (data : value) :
  (∀ rule, rule ∈ rules →
     VisitorContext.pick ctx (SchemaRule.select rule) data = []) →
  visitRules ctx rules data
  = (VisitorContext.mk
       (VisitorContext.logger ctx ++ replicate (length rules) noDataSelected)
       (VisitorContext.innerOptions ctx) (VisitorContext.changes ctx)
       (VisitorContext.errors ctx) (VisitorContext.pick ctx)
       (VisitorContext.compile ctx),
     data).
Proof.
  revert ctx. unfold visitRules.
  induction rules as [|rule rules IH]; intros ctx Hnone.
  - simpl. rewrite app_nil_r. by destruct ctx.
  - change (foldl ?f (ctx, data) (rule :: rules))
      with (foldl f (visitRule ctx data rule) rules).
    assert (visitRule ctx data rule
            = (VisitorContext.debug [] "no data selected" ctx, data)) as ->.
    { rewrite visitRule_eq. unfold pick. by rewrite (Hnone rule) by left. }
    rewrite IH by (intros r Hr; simpl; apply Hnone; by right).
    simpl. by rewrite <- app_assoc.
Qed.

Lemma visitRules_nothing_selected_witness :
  let run := @visitRules structural (freshContext true) [nowhere; nowhere]
               inventory in
  run.2 = inventory
  ∧ VisitorContext.logger run.1 = [noDataSelected; noDataSelected].
Proof.
  intros run. subst run.
  rewrite (@visitRules_nothing_selected structural (freshContext true)
             [nowhere; nowhere] inventory).
  - split; reflexivity.
  - intros rule Hrule.
    apply elem_of_cons in Hrule as [-> | Hrule]; [reflexivity|].
    apply list_elem_of_singleton in Hrule as ->. reflexivity.
Defined.

(** A run over two lists of rules, one after the other, is the run over the
    first followed by the run over the second from the context and the
    document the first left. *)
Lemma visitRules_app `{DeltaEngine} (ctx : VisitorContext.t)
    (rules1 rules2 : list SchemaRule.t) (data : value) :
  visitRules ctx (rules1 ++ rules2) data
  = visitRules (visitRules ctx rules1 data).1 rules2
      (visitRules ctx rules1 data).2.
Proof.
  unfold visitRules. rewrite foldl_app.
  by destruct (foldl _ (ctx, data) rules1).
Qed.

(** A later rule checks what an earlier rule wrote: after [tag-default], the
    rule [tag-required] finds the tag on the second server in a run that may
    mutate, and misses it in a run that may not. *)
Example scenario_sequential :
  let wet := @visitRules structural (freshContext true)
               [tagDefault; tagRequired] inventory in
  let dry := @visitRules structural (freshContext false)
               [tagDefault; tagRequired] inventory in
  VisitorContext.errors wet.1 = []
  ∧ VisitorContext.errors dry.1
    = [{| errRule := tagRequired; errPath := "."; errMsg := "tag" |}].
Proof. vm_compute. split; reflexivity. Qed.
